(** * JpCntx: the Japanese hiragana context analysis of universalchardet

    A shallow embedding of
    [extensions/universalchardet/src/base/JpCntx.cpp]: the 83x83 table of
    two-character frequency categories, the two [GetOrder] decoders
    (Shift-JIS and EUC-JP), and the streaming analyser [HandleData],
    [Reset] and [GetConfidence] of [JapaneseContextAnalysis].

    Conventions of the embedding.
    - [uint32_t] and [int32_t] values are integers of [Z]; every unsigned
      operation that can wrap is written with [wrap32].
    - A [const char*] into the caller's buffer is an offset into a
      [Buffer]: the [aLen] bytes handed to [HandleData], together with the
      byte [past] that happens to lie in memory right behind them.  Reads go
      through [load], which records in the [Rd] monad whether an access left
      the buffer.
    - A [float] is the rational number it holds.  The conversion
      [(float)n] of an integer and the division of two floats round to the
      nearest binary32 number, ties to even ([round32]); the values met
      here lie between [2^-32] and [2^32], so the exponent never leaves the
      normal range of the format.
    - [HandleData] is modelled for calls with [aLen + 3 <= 2^32]
      ([chunk_ok]), where the 32-bit offset of its loop cannot wrap. *)

From Stdlib Require Import ZArith Lia Bool QArith Qround Qpower.
From Stdlib Require Import Floats.SpecFloat.
From stdpp Require Import base tactics option list.
From Stdlib.Strings Require Import Byte.

Local Open Scope Z_scope.

(** ** Machine integers and bytes *)

Definition wrap32 (z : Z) : Z := z mod 2 ^ 32.

(** [(unsigned char)c] *)
Definition uchar (c : byte) : Z := Z.of_N (Byte.to_N c).

(** ** Reading through a pointer *)

(** A computation that reads memory: its result, and whether some read fell
    outside the buffer. *)
Record Rd (A : Type) : Type := mkRd { value : A; overread : bool }.
Arguments mkRd {A} _ _.
Arguments value {A} _.
Arguments overread {A} _.

#[global] Instance Rd_ret : MRet Rd := fun A a => mkRd a false.
#[global] Instance Rd_bind : MBind Rd := fun A B f m =>
  let r := f (value m) in mkRd (value r) (overread m || overread r).

(** The memory [HandleData] is given: [aBuf[0 .. aLen-1]] is the chunk, and
    [past] is whatever byte sits at [aBuf[aLen]]. *)
Record Buffer : Type := mkBuffer { aBuf : list byte; past : byte }.

Definition aLen (b : Buffer) : Z := Z.of_nat (length (aBuf b)).

(** [(unsigned char)aBuf[i]] *)
Definition load (b : Buffer) (i : Z) : Rd Z :=
  match aBuf b !! Z.to_nat i with
  | Some c => mkRd (uchar c) false
  | None => mkRd (uchar (past b)) true
  end.

(** ** The frequency-category table *)

(** Modelled from the spec: [NUM_OF_CATEGORY] is a macro of JpCntx.h, which
    is not part of the sources at hand; the categories are 0 to 5 and the
    histogram has six entries. *)
Definition NUM_OF_CATEGORY : nat := 6.

Definition jp2CharContext : list (list Z) := [
  [0;0;0;2;0;0;0;0;0;0;0;0;0;0;0;0;0;0;0;0;0;0;0;0;0;0;0;0;0;0;0;0;0;0;0;0;0;0;0;1;0;0;0;0;0;0;0;0;0;0;0;0;0;0;0;0;0;0;0;0;0;0;0;0;0;0;0;1;0;0;0;1;0;0;0;0;0;0;0;0;0;0;1];
  [2;4;0;4;0;3;0;4;0;3;4;4;4;2;4;3;3;4;3;2;3;3;4;2;3;3;3;2;4;1;4;3;3;1;5;4;3;4;3;4;3;5;3;0;3;5;4;2;0;3;1;0;3;3;0;3;3;0;1;1;0;4;3;0;3;3;0;4;0;2;0;3;5;5;5;5;4;0;4;1;0;3;4];
  [0;0;1;0;0;0;0;0;0;0;0;0;0;0;0;0;0;0;0;0;0;0;0;0;0;0;0;0;0;0;0;0;0;0;1;0;0;0;0;0;0;0;0;0;0;0;0;0;0;0;0;0;0;0;0;0;0;0;0;0;0;0;0;0;0;0;0;0;0;0;0;0;0;0;0;0;0;0;0;0;0;0;2];
  [0;4;0;5;0;5;0;4;0;4;5;4;4;3;5;3;5;1;5;3;4;3;4;4;3;4;3;3;4;3;5;4;4;3;5;5;3;5;5;5;3;5;5;3;4;5;5;3;1;3;2;0;3;4;0;4;2;0;4;2;1;5;3;2;3;5;0;4;0;2;0;5;4;4;5;4;5;0;4;0;0;4;4];
  [0;0;0;0;0;0;0;0;0;0;0;0;0;0;0;0;0;0;0;0;0;0;0;0;0;0;0;0;0;0;0;0;0;0;0;0;0;0;0;0;0;0;0;0;0;0;0;0;0;0;0;0;0;0;0;0;0;0;0;0;0;0;0;0;0;0;0;0;0;0;0;0;0;0;0;0;0;0;0;0;0;0;0];
  [0;3;0;4;0;3;0;3;0;4;5;4;3;3;3;3;4;3;5;4;4;3;5;4;4;3;4;3;4;4;4;4;5;3;4;4;3;4;5;5;4;5;5;1;4;5;4;3;0;3;3;1;3;3;0;4;4;0;3;3;1;5;3;3;3;5;0;4;0;3;0;4;4;3;4;3;3;0;4;1;1;3;4];
  [0;0;0;0;0;0;0;0;0;0;0;0;0;0;0;0;0;0;0;0;0;0;0;0;0;0;0;0;0;0;0;0;0;0;1;0;0;0;0;0;0;0;0;0;0;0;0;0;0;0;0;0;0;0;0;0;0;0;0;0;0;0;0;0;0;0;0;0;0;0;0;0;0;0;0;0;0;0;0;0;0;0;0];
  [0;4;0;3;0;3;0;4;0;3;4;4;3;2;2;1;2;1;3;1;3;3;3;3;3;4;3;1;3;3;5;3;3;0;4;3;0;5;4;3;3;5;4;4;3;4;4;5;0;1;2;0;1;2;0;2;2;0;1;0;0;5;2;2;1;4;0;3;0;1;0;4;4;3;5;4;3;0;2;1;0;4;3];
  [0;0;0;0;0;0;0;0;0;0;0;0;0;0;0;0;0;0;0;0;0;0;0;0;0;0;0;0;0;0;0;0;0;0;0;0;0;0;0;1;0;0;0;0;0;0;0;0;0;0;0;0;0;0;0;0;0;0;0;0;0;0;0;0;0;0;0;0;0;0;0;0;0;0;0;0;0;0;0;0;0;0;0];
  [0;3;0;5;0;4;0;2;1;4;4;2;4;1;4;2;4;2;4;3;3;3;4;3;3;3;3;1;4;2;3;3;3;1;4;4;1;1;1;4;3;3;2;0;2;4;3;2;0;3;3;0;3;1;1;0;0;0;3;3;0;4;2;2;3;4;0;4;0;3;0;4;4;5;3;4;4;0;3;0;0;1;4];
  [1;4;0;4;0;4;0;4;0;3;5;4;4;3;4;3;5;4;3;3;4;3;5;4;4;4;4;3;4;2;4;3;3;1;5;4;3;2;4;5;4;5;5;4;4;5;4;4;0;3;2;2;3;3;0;4;3;1;3;2;1;4;3;3;4;5;0;3;0;2;0;4;5;5;4;5;4;0;4;0;0;5;4];
  [0;5;0;5;0;4;0;3;0;4;4;3;4;3;3;3;4;0;4;4;4;3;4;3;4;3;3;1;4;2;4;3;4;0;5;4;1;4;5;4;4;5;3;2;4;3;4;3;2;4;1;3;3;3;2;3;2;0;4;3;3;4;3;3;3;4;0;4;0;3;0;4;5;4;4;4;3;0;4;1;0;1;3];
  [0;3;1;4;0;3;0;2;0;3;4;4;3;1;4;2;3;3;4;3;4;3;4;3;4;4;3;2;3;1;5;4;4;1;4;4;3;5;4;4;3;5;5;4;3;4;4;3;1;2;3;1;2;2;0;3;2;0;3;1;0;5;3;3;3;4;3;3;3;3;4;4;4;4;5;4;2;0;3;3;2;4;3];
  [0;2;0;3;0;1;0;1;0;0;3;2;0;0;2;0;1;0;2;1;3;3;3;1;2;3;1;0;1;0;4;2;1;1;3;3;0;4;3;3;1;4;3;3;0;3;3;2;0;0;0;0;1;0;0;2;0;0;0;0;0;4;1;0;2;3;2;2;2;1;3;3;3;4;4;3;2;0;3;1;0;3;3];
  [0;4;0;4;0;3;0;3;0;4;4;4;3;3;3;3;3;3;4;3;4;2;4;3;4;3;3;2;4;3;4;5;4;1;4;5;3;5;4;5;3;5;4;0;3;5;5;3;1;3;3;2;2;3;0;3;4;1;3;3;2;4;3;3;3;4;0;4;0;3;0;4;5;4;4;5;3;0;4;1;0;3;4];
  [0;2;0;3;0;3;0;0;0;2;2;2;1;0;1;0;0;0;3;0;3;0;3;0;1;3;1;0;3;1;3;3;3;1;3;3;3;0;1;3;1;3;4;0;0;3;1;1;0;3;2;0;0;0;0;1;3;0;1;0;0;3;3;2;0;3;0;0;0;0;0;3;4;3;4;3;3;0;3;0;0;2;3];
  [2;3;0;3;0;2;0;1;0;3;3;4;3;1;3;1;1;1;3;1;4;3;4;3;3;3;0;0;3;1;5;4;3;1;4;3;2;5;5;4;4;4;4;3;3;4;4;4;0;2;1;1;3;2;0;1;2;0;0;1;0;4;1;3;3;3;0;3;0;1;0;4;4;4;5;5;3;0;2;0;0;4;4];
  [0;2;0;1;0;3;1;3;0;2;3;3;3;0;3;1;0;0;3;0;3;2;3;1;3;2;1;1;0;0;4;2;1;0;2;3;1;4;3;2;0;4;4;3;1;3;1;3;0;1;0;0;1;0;0;0;1;0;0;0;0;4;1;1;1;2;0;3;0;0;0;3;4;2;4;3;2;0;1;0;0;3;3];
  [0;1;0;4;0;5;0;4;0;2;4;4;2;3;3;2;3;3;5;3;3;3;4;3;4;2;3;0;4;3;3;3;4;1;4;3;2;1;5;5;3;4;5;1;3;5;4;2;0;3;3;0;1;3;0;4;2;0;1;3;1;4;3;3;3;3;0;3;0;1;0;3;4;4;4;5;5;0;3;0;1;4;5];
  [0;2;0;3;0;3;0;0;0;2;3;1;3;0;4;0;1;1;3;0;3;4;3;2;3;1;0;3;3;2;3;1;3;0;2;3;0;2;1;4;1;2;2;0;0;3;3;0;0;2;0;0;0;1;0;0;0;0;2;2;0;3;2;1;3;3;0;2;0;2;0;0;3;3;1;2;4;0;3;0;2;2;3];
  [2;4;0;5;0;4;0;4;0;2;4;4;4;3;4;3;3;3;1;2;4;3;4;3;4;4;5;0;3;3;3;3;2;0;4;3;1;4;3;4;1;4;4;3;3;4;4;3;1;2;3;0;4;2;0;4;1;0;3;3;0;4;3;3;3;4;0;4;0;2;0;3;5;3;4;5;2;0;3;0;0;4;5];
  [0;3;0;4;0;1;0;1;0;1;3;2;2;1;3;0;3;0;2;0;2;0;3;0;2;0;0;0;1;0;1;1;0;0;3;1;0;0;0;4;0;3;1;0;2;1;3;0;0;0;0;0;0;3;0;0;0;0;0;0;0;4;2;2;3;1;0;3;0;0;0;1;4;4;4;3;0;0;4;0;0;1;4];
  [1;4;1;5;0;3;0;3;0;4;5;4;4;3;5;3;3;4;4;3;4;1;3;3;3;3;2;1;4;1;5;4;3;1;4;4;3;5;4;4;3;5;4;3;3;4;4;4;0;3;3;1;2;3;0;3;1;0;3;3;0;5;4;4;4;4;4;4;3;3;5;4;4;3;3;5;4;0;3;2;0;4;4];
  [0;2;0;3;0;1;0;0;0;1;3;3;3;2;4;1;3;0;3;1;3;0;2;2;1;1;0;0;2;0;4;3;1;0;4;3;0;4;4;4;1;4;3;1;1;3;3;1;0;2;0;0;1;3;0;0;0;0;2;0;0;4;3;2;4;3;5;4;3;3;3;4;3;3;4;3;3;0;2;1;0;3;3];
  [0;2;0;4;0;3;0;2;0;2;5;5;3;4;4;4;4;1;4;3;3;0;4;3;4;3;1;3;3;2;4;3;0;3;4;3;0;3;4;4;2;4;4;0;4;5;3;3;2;2;1;1;1;2;0;1;5;0;3;3;2;4;3;3;3;4;0;3;0;2;0;4;4;3;5;5;0;0;3;0;2;3;3];
  [0;3;0;4;0;3;0;1;0;3;4;3;3;1;3;3;3;0;3;1;3;0;4;3;3;1;1;0;3;0;3;3;0;0;4;4;0;1;5;4;3;3;5;0;3;3;4;3;0;2;0;1;1;1;0;1;3;0;1;2;1;3;3;2;3;3;0;3;0;1;0;1;3;3;4;4;1;0;1;2;2;1;3];
  [0;1;0;4;0;4;0;3;0;1;3;3;3;2;3;1;1;0;3;0;3;3;4;3;2;4;2;0;1;0;4;3;2;0;4;3;0;5;3;3;2;4;4;4;3;3;3;4;0;1;3;0;0;1;0;0;1;0;0;0;0;4;2;3;3;3;0;3;0;0;0;4;4;4;5;3;2;0;3;3;0;3;5];
  [0;2;0;3;0;0;0;3;0;1;3;0;2;0;0;0;1;0;3;1;1;3;3;0;0;3;0;0;3;0;2;3;1;0;3;1;0;3;3;2;0;4;2;2;0;2;0;0;0;4;0;0;0;0;0;0;0;0;0;0;0;2;1;2;0;1;0;1;0;0;0;1;3;1;2;0;0;0;1;0;0;1;4];
  [0;3;0;3;0;5;0;1;0;2;4;3;1;3;3;2;1;1;5;2;1;0;5;1;2;0;0;0;3;3;2;2;3;2;4;3;0;0;3;3;1;3;3;0;2;5;3;4;0;3;3;0;1;2;0;2;2;0;3;2;0;2;2;3;3;3;0;2;0;1;0;3;4;4;2;5;4;0;3;0;0;3;5];
  [0;3;0;3;0;3;0;1;0;3;3;3;3;0;3;0;2;0;2;1;1;0;2;0;1;0;0;0;2;1;0;0;1;0;3;2;0;0;3;3;1;2;3;1;0;3;3;0;0;1;0;0;0;0;0;2;0;0;0;0;0;2;3;1;2;3;0;3;0;1;0;3;2;1;0;4;3;0;1;1;0;3;3];
  [0;4;0;5;0;3;0;3;0;4;5;5;4;3;5;3;4;3;5;3;3;2;5;3;4;4;4;3;4;3;4;5;5;3;4;4;3;4;4;5;4;4;4;3;4;5;5;4;2;3;4;2;3;4;0;3;3;1;4;3;2;4;3;3;5;5;0;3;0;3;0;5;5;5;5;4;4;0;4;0;1;4;4];
  [0;4;0;4;0;3;0;3;0;3;5;4;4;2;3;2;5;1;3;2;5;1;4;2;3;2;3;3;4;3;3;3;3;2;5;4;1;3;3;5;3;4;4;0;4;4;3;1;1;3;1;0;2;3;0;2;3;0;3;0;0;4;3;1;3;4;0;3;0;2;0;4;4;4;3;4;5;0;4;0;0;3;4];
  [0;3;0;3;0;3;1;2;0;3;4;4;3;3;3;0;2;2;4;3;3;1;3;3;3;1;1;0;3;1;4;3;2;3;4;4;2;4;4;4;3;4;4;3;2;4;4;3;1;3;3;1;3;3;0;4;1;0;2;2;1;4;3;2;3;3;5;4;3;3;5;4;4;3;3;0;4;0;3;2;2;4;4];
  [0;2;0;1;0;0;0;0;0;1;2;1;3;0;0;0;0;0;2;0;1;2;1;0;0;1;0;0;0;0;3;0;0;1;0;1;1;3;1;0;0;0;1;1;0;1;1;0;0;0;0;0;2;0;0;0;0;0;0;0;0;1;1;2;2;0;3;4;0;0;0;1;1;0;0;1;0;0;0;0;0;1;1];
  [0;1;0;0;0;1;0;0;0;0;4;0;4;1;4;0;3;0;4;0;3;0;4;0;3;0;3;0;4;1;5;1;4;0;0;3;0;5;0;5;2;0;1;0;0;0;2;1;4;0;1;3;0;0;3;0;0;3;1;1;4;1;0;0;0;0;0;0;0;0;0;0;0;0;1;0;0;0;0;0;0;0;0];
  [1;4;0;5;0;3;0;2;0;3;5;4;4;3;4;3;5;3;4;3;3;0;4;3;3;3;3;3;3;2;4;4;3;1;3;4;4;5;4;4;3;4;4;1;3;5;4;3;3;3;1;2;2;3;3;1;3;1;3;3;3;5;3;3;4;5;0;3;0;3;0;3;4;3;4;4;3;0;3;0;2;4;3];
  [0;1;0;4;0;0;0;0;0;1;4;0;4;1;4;2;4;0;3;0;1;0;1;0;0;0;0;0;2;0;3;1;1;1;0;3;0;0;0;1;2;1;0;0;1;1;1;1;0;1;0;0;0;1;0;0;3;0;0;0;0;3;2;0;2;2;0;1;0;0;0;2;3;2;3;3;0;0;0;0;2;1;0];
  [0;5;1;5;0;3;0;3;0;5;4;4;5;1;5;3;3;0;4;3;4;3;5;3;4;3;3;2;4;3;4;3;3;0;3;3;1;4;4;3;4;4;4;3;4;5;5;3;2;3;1;1;3;3;1;3;1;1;3;3;2;4;5;3;3;5;0;4;0;3;0;4;4;3;5;3;3;0;3;4;0;4;3];
  [0;5;0;5;0;3;0;2;0;4;4;3;5;2;4;3;3;3;4;4;4;3;5;3;5;3;3;1;4;0;4;3;3;0;3;3;0;4;4;4;4;5;4;3;3;5;5;3;2;3;1;2;3;2;0;1;0;0;3;2;2;4;4;3;1;5;0;4;0;3;0;4;3;1;3;2;1;0;3;3;0;3;3];
  [0;4;0;5;0;5;0;4;0;4;5;5;5;3;4;3;3;2;5;4;4;3;5;3;5;3;4;0;4;3;4;4;3;2;4;4;3;4;5;4;4;5;5;0;3;5;5;4;1;3;3;2;3;3;1;3;1;0;4;3;1;4;4;3;4;5;0;4;0;2;0;4;3;4;4;3;3;0;4;0;0;5;5];
  [0;4;0;4;0;5;0;1;1;3;3;4;4;3;4;1;3;0;5;1;3;0;3;1;3;1;1;0;3;0;3;3;4;0;4;3;0;4;4;4;3;4;4;0;3;5;4;1;0;3;0;0;2;3;0;3;1;0;3;1;0;3;2;1;3;5;0;3;0;1;0;3;2;3;3;4;4;0;2;2;0;4;4];
  [2;4;0;5;0;4;0;3;0;4;5;5;4;3;5;3;5;3;5;3;5;2;5;3;4;3;3;4;3;4;5;3;2;1;5;4;3;2;3;4;5;3;4;1;2;5;4;3;0;3;3;0;3;2;0;2;3;0;4;1;0;3;4;3;3;5;0;3;0;1;0;4;5;5;5;4;3;0;4;2;0;3;5];
  [0;5;0;4;0;4;0;2;0;5;4;3;4;3;4;3;3;3;4;3;4;2;5;3;5;3;4;1;4;3;4;4;4;0;3;5;0;4;4;4;4;5;3;1;3;4;5;3;3;3;3;3;3;3;0;2;2;0;3;3;2;4;3;3;3;5;3;4;1;3;3;5;3;2;0;0;0;0;4;3;1;3;3];
  [0;1;0;3;0;3;0;1;0;1;3;3;3;2;3;3;3;0;3;0;0;0;3;1;3;0;0;0;2;2;2;3;0;0;3;2;0;1;2;4;1;3;3;0;0;3;3;3;0;1;0;0;2;1;0;0;3;0;3;1;0;3;0;0;1;3;0;2;0;1;0;3;3;1;3;3;0;0;1;1;0;3;3];
  [0;2;0;3;0;2;1;4;0;2;2;3;1;1;3;1;1;0;2;0;3;1;2;3;1;3;0;0;1;0;4;3;2;3;3;3;1;4;2;3;3;3;3;1;0;3;1;4;0;1;1;0;1;2;0;1;1;0;1;1;0;3;1;3;2;2;0;1;0;0;0;2;3;3;3;1;0;0;0;0;0;2;3];
  [0;5;0;4;0;5;0;2;0;4;5;5;3;3;4;3;3;1;5;4;4;2;4;4;4;3;4;2;4;3;5;5;4;3;3;4;3;3;5;5;4;5;5;1;3;4;5;3;1;4;3;1;3;3;0;3;3;1;4;3;1;4;5;3;3;5;0;4;0;3;0;5;3;3;1;4;3;0;4;0;1;5;3];
  [0;5;0;5;0;4;0;2;0;4;4;3;4;3;3;3;3;3;5;4;4;4;4;4;4;5;3;3;5;2;4;4;4;3;4;4;3;3;4;4;5;5;3;3;4;3;4;3;3;4;3;3;3;3;1;2;2;1;4;3;3;5;4;4;3;4;0;4;0;3;0;4;4;4;4;4;1;0;4;2;0;2;4];
  [0;4;0;4;0;3;0;1;0;3;5;2;3;0;3;0;2;1;4;2;3;3;4;1;4;3;3;2;4;1;3;3;3;0;3;3;0;0;3;3;3;5;3;3;3;3;3;2;0;2;0;0;2;0;0;2;0;0;1;0;0;3;1;2;2;3;0;3;0;2;0;4;4;3;3;4;1;0;3;0;0;2;4];
  [0;0;0;4;0;0;0;0;0;0;1;0;1;0;2;0;0;0;0;0;1;0;2;0;1;0;0;0;0;0;3;1;3;0;3;2;0;0;0;1;0;3;2;0;0;2;0;0;0;0;0;0;0;0;0;0;0;0;0;0;0;0;0;0;0;0;0;0;0;0;0;0;3;4;0;2;0;0;0;0;0;0;2];
  [0;2;1;3;0;2;0;2;0;3;3;3;3;1;3;1;3;3;3;3;3;3;4;2;2;1;2;1;4;0;4;3;1;3;3;3;2;4;3;5;4;3;3;3;3;3;3;3;0;1;3;0;2;0;0;1;0;0;1;0;0;4;2;0;2;3;0;3;3;0;3;3;4;2;3;1;4;0;1;2;0;2;3];
  [0;3;0;3;0;1;0;3;0;2;3;3;3;0;3;1;2;0;3;3;2;3;3;2;3;2;3;1;3;0;4;3;2;0;3;3;1;4;3;3;2;3;4;3;1;3;3;1;1;0;1;1;0;1;0;1;0;1;0;0;0;4;1;1;0;3;0;3;1;0;2;3;3;3;3;3;1;0;0;2;0;3;3];
  [0;0;0;0;0;0;0;0;0;0;3;0;2;0;3;0;0;0;0;0;0;0;3;0;0;0;0;0;0;0;3;0;3;0;3;1;0;1;0;1;0;0;1;0;0;0;0;0;0;0;0;0;0;0;0;0;0;0;0;0;0;0;0;0;0;0;0;0;3;0;2;0;2;3;0;0;0;0;0;0;0;0;3];
  [0;2;0;3;1;3;0;3;0;2;3;3;3;1;3;1;3;1;3;1;3;3;3;1;3;0;2;3;1;1;4;3;3;2;3;3;1;2;2;4;1;3;3;0;1;4;2;3;0;1;3;0;3;0;0;1;3;0;2;0;0;3;3;2;1;3;0;3;0;2;0;3;4;4;4;3;1;0;3;0;0;3;3];
  [0;2;0;1;0;2;0;0;0;1;3;2;2;1;3;0;1;1;3;0;3;2;3;1;2;0;2;0;1;1;3;3;3;0;3;3;1;1;2;3;2;3;3;1;2;3;2;0;0;1;0;0;0;0;0;0;3;0;1;0;0;2;1;2;1;3;0;3;0;0;0;3;4;4;4;3;2;0;2;0;0;2;4];
  [0;0;0;1;0;1;0;0;0;0;1;0;0;0;1;0;0;0;0;0;0;0;1;1;1;0;0;0;0;0;0;0;0;0;2;2;0;0;0;1;0;0;0;0;0;0;0;0;0;0;0;0;0;0;0;0;0;0;0;0;0;0;0;0;0;0;0;1;0;0;0;0;1;3;1;0;0;0;0;0;0;0;3];
  [0;3;0;3;0;2;0;3;0;3;3;3;2;3;2;2;2;0;3;1;3;3;3;2;3;3;0;0;3;0;3;2;2;0;2;3;1;4;3;4;3;3;2;3;1;5;4;4;0;3;1;2;1;3;0;3;1;1;2;0;2;3;1;3;1;3;0;3;0;1;0;3;3;4;4;2;1;0;2;1;0;2;4];
  [0;1;0;3;0;1;0;2;0;1;4;2;5;1;4;0;2;0;2;1;3;1;4;0;2;1;0;0;2;1;4;1;1;0;3;3;0;5;1;3;2;3;3;1;0;3;2;3;0;1;0;0;0;0;0;0;1;0;0;0;0;4;0;1;0;3;0;2;0;1;0;3;3;3;4;3;3;0;0;0;0;2;3];
  [0;0;0;1;0;0;0;0;0;0;2;0;1;0;0;0;0;0;1;0;0;0;0;0;0;0;0;0;0;0;3;0;0;0;0;0;0;1;0;0;0;0;0;0;0;0;0;0;0;0;0;0;0;0;0;0;0;0;0;0;0;0;0;0;0;0;0;0;0;0;0;0;2;1;0;0;1;0;0;0;0;0;3];
  [0;1;0;3;0;4;0;3;0;2;4;3;1;0;3;2;2;1;3;1;2;2;3;1;1;1;2;1;3;0;1;2;0;1;3;2;1;3;0;5;5;1;0;0;1;3;2;1;0;3;0;0;1;0;0;0;0;0;3;4;0;1;1;1;3;2;0;2;0;1;0;2;3;3;1;2;3;0;1;0;1;0;4];
  [0;0;0;1;0;3;0;3;0;2;2;1;0;0;4;0;3;0;3;1;3;0;3;0;3;0;1;0;3;0;3;1;3;0;3;3;0;0;1;2;1;1;1;0;1;2;0;0;0;1;0;0;1;0;0;0;0;0;0;0;0;2;2;1;2;0;0;2;0;0;0;0;2;3;3;3;3;0;0;0;0;1;4];
  [0;0;0;3;0;3;0;0;0;0;3;1;1;0;3;0;1;0;2;0;1;0;0;0;0;0;0;0;1;0;3;0;2;0;2;3;0;0;2;2;3;1;2;0;0;1;0;0;0;0;0;0;0;0;0;1;0;0;0;0;0;0;0;0;0;0;0;0;0;0;0;0;0;3;0;0;2;0;0;0;0;2;3];
  [2;4;0;5;0;5;0;4;0;3;4;3;3;3;4;3;3;3;4;3;4;4;5;4;5;5;5;2;3;0;5;5;4;1;5;4;3;1;5;4;3;4;4;3;3;4;3;3;0;3;2;0;2;3;0;3;0;0;3;3;0;5;3;2;3;3;0;3;0;3;0;3;4;5;4;5;3;0;4;3;0;3;4];
  [0;3;0;3;0;3;0;3;0;3;3;4;3;2;3;2;3;0;4;3;3;3;3;3;3;3;3;0;3;2;4;3;3;1;3;4;3;4;4;4;3;4;4;3;2;4;4;1;0;2;0;0;1;1;0;2;0;0;3;1;0;5;3;2;1;3;0;3;0;1;2;4;3;2;4;3;3;0;3;2;0;4;4];
  [0;3;0;3;0;1;0;0;0;1;4;3;3;2;3;1;3;1;4;2;3;2;4;2;3;4;3;0;2;2;3;3;3;0;3;3;3;0;3;4;1;3;3;0;3;4;3;3;0;1;1;0;1;0;0;0;4;0;3;0;0;3;1;2;1;3;0;4;0;1;0;4;3;3;4;3;3;0;2;0;0;3;3];
  [0;3;0;4;0;1;0;3;0;3;4;3;3;0;3;3;3;1;3;1;3;3;4;3;3;3;0;0;3;1;5;3;3;1;3;3;2;5;4;3;3;4;5;3;2;5;3;4;0;1;0;0;0;0;0;2;0;0;1;1;0;4;2;2;1;3;0;3;0;2;0;4;4;3;5;3;2;0;1;1;0;3;4];
  [0;5;0;4;0;5;0;2;0;4;4;3;3;2;3;3;3;1;4;3;4;1;5;3;4;3;4;0;4;2;4;3;4;1;5;4;0;4;4;4;4;5;4;1;3;5;4;2;1;4;1;1;3;2;0;3;1;0;3;2;1;4;3;3;3;4;0;4;0;3;0;4;4;4;3;3;3;0;4;2;0;3;4];
  [1;4;0;4;0;3;0;1;0;3;3;3;1;1;3;3;2;2;3;3;1;0;3;2;2;1;2;0;3;1;2;1;2;0;3;2;0;2;2;3;3;4;3;0;3;3;1;2;0;1;1;3;1;2;0;0;3;0;1;1;0;3;2;2;3;3;0;3;0;0;0;2;3;3;4;3;3;0;1;0;0;1;4];
  [0;4;0;4;0;4;0;0;0;3;4;4;3;1;4;2;3;2;3;3;3;1;4;3;4;0;3;0;4;2;3;3;2;2;5;4;2;1;3;4;3;4;3;1;3;3;4;2;0;2;1;0;3;3;0;0;2;0;3;1;0;4;4;3;4;3;0;4;0;1;0;2;4;4;4;4;4;0;3;2;0;3;3];
  [0;0;0;1;0;4;0;0;0;0;0;0;1;1;1;0;0;0;0;0;0;0;0;0;1;0;0;0;0;0;0;0;1;0;3;2;0;0;1;0;0;0;1;0;0;0;0;0;0;1;0;0;0;0;0;0;0;0;0;0;0;0;0;0;0;0;0;0;0;0;0;0;0;0;0;0;1;0;0;0;0;0;2];
  [0;2;0;3;0;4;0;4;0;1;3;3;3;0;4;0;2;1;2;1;1;1;2;0;3;1;1;0;1;0;3;1;0;0;3;3;2;0;1;1;0;0;0;0;0;1;0;2;0;2;2;0;3;1;0;0;1;0;1;1;0;1;2;0;3;0;0;0;0;1;0;0;3;3;4;3;1;0;1;0;3;0;2];
  [0;0;0;3;0;5;0;0;0;0;1;0;2;0;3;1;0;1;3;0;0;0;2;0;0;0;1;0;0;0;1;1;0;0;4;0;0;0;2;3;0;1;4;1;0;2;0;0;0;0;0;0;0;0;0;0;0;0;0;3;0;0;0;0;0;1;0;0;0;0;0;0;0;2;0;0;3;0;0;0;0;0;3];
  [0;2;0;5;0;5;0;1;0;2;4;3;3;2;5;1;3;2;3;3;3;0;4;1;2;0;3;0;4;0;2;2;1;1;5;3;0;0;1;4;2;3;2;0;3;3;3;2;0;2;4;1;1;2;0;1;1;0;3;1;0;1;3;1;2;3;0;2;0;0;0;1;3;5;4;4;4;0;3;0;0;1;3];
  [0;4;0;5;0;4;0;4;0;4;5;4;3;3;4;3;3;3;4;3;4;4;5;3;4;5;4;2;4;2;3;4;3;1;4;4;1;3;5;4;4;5;5;4;4;5;5;5;2;3;3;1;4;3;1;3;3;0;3;3;1;4;3;4;4;4;0;3;0;4;0;3;3;4;4;5;0;0;4;3;0;4;5];
  [0;4;0;4;0;3;0;3;0;3;4;4;4;3;3;2;4;3;4;3;4;3;5;3;4;3;2;1;4;2;4;4;3;1;3;4;2;4;5;5;3;4;5;4;1;5;4;3;0;3;2;2;3;2;1;3;1;0;3;3;3;5;3;3;3;5;4;4;2;3;3;4;3;3;3;2;1;0;3;2;1;4;3];
  [0;4;0;5;0;4;0;3;0;3;5;5;3;2;4;3;4;0;5;4;4;1;4;4;4;3;3;3;4;3;5;5;2;3;3;4;1;2;5;5;3;5;5;2;3;5;5;4;0;3;2;0;3;3;1;1;5;1;4;1;0;4;3;2;3;5;0;4;0;3;0;5;4;3;4;3;0;0;4;1;0;4;4];
  [1;3;0;4;0;2;0;2;0;2;5;5;3;3;3;3;3;0;4;2;3;4;4;4;3;4;0;0;3;4;5;4;3;3;3;3;2;5;5;4;5;5;5;4;3;5;5;5;1;3;1;0;1;0;0;3;2;0;4;2;0;5;2;3;2;4;1;3;0;3;0;4;5;4;5;4;3;0;4;2;0;5;4];
  [0;3;0;4;0;5;0;3;0;3;4;4;3;2;3;2;3;3;3;3;3;2;4;3;3;2;2;0;3;3;3;3;3;1;3;3;3;0;4;4;3;4;4;1;1;4;4;2;0;3;1;0;1;1;0;4;1;0;2;3;1;3;3;1;3;4;0;3;0;1;0;3;1;3;0;0;1;0;2;0;0;4;4];
  [0;0;0;0;0;0;0;0;0;0;0;0;0;0;0;0;0;0;0;0;0;0;0;0;0;0;0;0;0;0;0;0;0;0;0;0;0;0;0;0;0;0;0;0;0;0;0;0;0;0;0;0;0;0;0;0;0;0;0;0;0;0;0;0;0;0;0;0;0;0;0;0;0;0;0;0;0;0;0;0;0;0;0];
  [0;3;0;3;0;2;0;3;0;1;5;4;3;3;3;1;4;2;1;2;3;4;4;2;4;4;5;0;3;1;4;3;4;0;4;3;3;3;2;3;2;5;3;4;3;2;2;3;0;0;3;0;2;1;0;1;2;0;0;0;0;2;1;1;3;1;0;2;0;4;0;3;4;4;4;5;2;0;2;0;0;1;3];
  [0;0;0;0;0;0;0;0;0;0;0;0;0;0;1;0;0;0;0;0;1;1;1;0;0;1;1;0;0;0;4;2;1;1;0;1;0;3;2;0;0;3;1;1;1;2;2;0;0;0;0;0;0;0;0;0;0;0;0;0;0;3;0;1;0;0;0;2;0;0;0;1;4;0;4;2;1;0;0;0;0;0;1];
  [0;0;0;0;0;0;0;0;0;1;0;1;0;0;0;0;1;0;0;0;0;0;0;1;0;1;0;0;0;0;3;1;0;0;0;2;0;2;1;0;0;1;2;1;0;1;1;0;0;3;0;0;0;0;0;0;0;0;0;0;0;1;3;1;0;0;0;0;0;1;0;0;2;1;0;0;0;0;0;0;0;0;2];
  [0;4;0;4;0;4;0;3;0;4;4;3;4;2;4;3;2;0;4;4;4;3;5;3;5;3;3;2;4;2;4;3;4;3;1;4;0;2;3;4;4;4;3;3;3;4;4;4;3;4;1;3;4;3;2;1;2;1;3;3;3;4;4;3;3;5;0;4;0;3;0;4;3;3;3;2;1;0;3;0;0;3;3];
  [0;4;0;3;0;3;0;3;0;3;5;5;3;3;3;3;4;3;4;3;3;3;4;4;4;3;3;3;3;4;3;5;3;3;1;3;2;4;5;5;5;5;4;3;4;5;5;3;2;2;3;3;3;3;2;3;3;1;2;3;2;4;3;3;3;4;0;4;0;2;0;4;3;2;2;1;2;0;3;0;0;4;1]
].

(** [jp2CharContext[a][b]] *)
Definition category (a b : Z) : Z :=
  (jp2CharContext !!! Z.to_nat a) !!! Z.to_nat b.

(** ** The order decoders *)

(** The two classes that implement the virtual [GetOrder]. *)
Inductive Encoding : Type := SJIS | EUCJP.

(** [SJISContextAnalysis::GetOrder(str, &charLen)]; [str k] reads [str[k]].
    The result is the pair of the returned order and [*charLen]. *)
Definition SJIS_GetOrder (str : Z → Rd Z) : Rd (Z * Z) :=
  c0 ← str 0;
  let charLen :=
    if (0x81 <=? c0) && (c0 <=? 0x9f) || (0xe0 <=? c0) && (c0 <=? 0xfc)
    then 2 else 1 in
  if c0 =? 0x82 then
    c1 ← str 1;
    if (0x9f <=? c1) && (c1 <=? 0xf1)
    then mret (c1 - 0x9f, charLen)
    else mret (-1, charLen)
  else mret (-1, charLen).

(** [EUCJPContextAnalysis::GetOrder(str, &charLen)] *)
Definition EUCJP_GetOrder (str : Z → Rd Z) : Rd (Z * Z) :=
  c0 ← str 0;
  let charLen :=
    if (c0 =? 0x8e) || (0xa1 <=? c0) && (c0 <=? 0xfe) then 2
    else if c0 =? 0x8f then 3
    else 1 in
  if c0 =? 0xa4 then
    c1 ← str 1;
    if (0xa1 <=? c1) && (c1 <=? 0xf3)
    then mret (c1 - 0xa1, charLen)
    else mret (-1, charLen)
  else mret (-1, charLen).

Definition GetOrder (e : Encoding) : (Z → Rd Z) → Rd (Z * Z) :=
  match e with
  | SJIS => SJIS_GetOrder
  | EUCJP => EUCJP_GetOrder
  end.

(** ** The analyser state *)

(** Modelled from the spec: the members of [JapaneseContextAnalysis] are
    declared in JpCntx.h, which is not part of the sources at hand.  The
    fields are the ones [Reset] assigns; the counters are unsigned 32-bit,
    like the locals of [HandleData] they are mixed with, and [mRelSample]
    has [NUM_OF_CATEGORY] entries. *)
Record State : Type := mkState {
  mRelSample : list Z;
  mTotalRel : Z;
  mDataThreshold : Z;
  mLastCharOrder : Z;
  mNeedToSkipCharNum : Z;
  mDone : bool
}.

Definition set_mRelSample (v : list Z) (st : State) : State :=
  mkState v (mTotalRel st) (mDataThreshold st) (mLastCharOrder st)
    (mNeedToSkipCharNum st) (mDone st).
Definition set_mTotalRel (v : Z) (st : State) : State :=
  mkState (mRelSample st) v (mDataThreshold st) (mLastCharOrder st)
    (mNeedToSkipCharNum st) (mDone st).
Definition set_mDataThreshold (v : Z) (st : State) : State :=
  mkState (mRelSample st) (mTotalRel st) v (mLastCharOrder st)
    (mNeedToSkipCharNum st) (mDone st).
Definition set_mLastCharOrder (v : Z) (st : State) : State :=
  mkState (mRelSample st) (mTotalRel st) (mDataThreshold st) v
    (mNeedToSkipCharNum st) (mDone st).
Definition set_mNeedToSkipCharNum (v : Z) (st : State) : State :=
  mkState (mRelSample st) (mTotalRel st) (mDataThreshold st)
    (mLastCharOrder st) v (mDone st).
Definition set_mDone (v : bool) (st : State) : State :=
  mkState (mRelSample st) (mTotalRel st) (mDataThreshold st)
    (mLastCharOrder st) (mNeedToSkipCharNum st) v.

(** [mRelSample[k]++] *)
Definition incr_sample (k : Z) (l : list Z) : list Z :=
  <[Z.to_nat k := wrap32 (l !!! Z.to_nat k + 1)]> l.

(** The sum of the category counters. *)
Definition total_samples (l : list Z) : Z := foldr Z.add 0 l.

(** [JapaneseContextAnalysis::Reset()] *)
Definition Reset (st : State) : State :=
  let st := set_mTotalRel 0 st in
  let st :=
    foldl (fun st i => set_mRelSample (<[i := 0]> (mRelSample st)) st) st
      (seq 0 NUM_OF_CATEGORY) in
  let st := set_mNeedToSkipCharNum 0 st in
  let st := set_mLastCharOrder (-1) st in
  let st := set_mDone false st in
  set_mDataThreshold 0 st.

Definition MINIMUM_DATA_THRESHOLD : Z := 4.

(** ** Single-precision arithmetic *)

(** [2^z] *)
Definition pow2 (z : Z) : Q := ((2 # 1) ^ z)%Q.

(** The binary exponent of a positive rational: [2^(mag x) <= x <
    2^(mag x + 1)]. *)
Definition mag (x : Q) : Z :=
  let k := Z.log2 (Qnum x) - Z.log2 (Zpos (Qden x)) in
  if Qle_bool (pow2 k) x then k else k - 1.

(** The integer nearest to [y], the even one of the two when [y] lies
    half-way. *)
Definition rne (y : Q) : Z :=
  let f := Qfloor y in
  match (y - inject_Z f ?= 1 # 2)%Q with
  | Lt => f
  | Gt => f + 1
  | Eq => if Z.even f then f else f + 1
  end.

(** The binary32 number nearest to a positive [x]: a 24-bit significand
    times [2^(mag x - 23)]. *)
Definition round32_pos (x : Q) : Q :=
  let u := pow2 (mag x - 23) in (inject_Z (rne (x / u)) * u)%Q.

(** Rounding to binary32, to nearest, ties to even. *)
Definition round32 (x : Q) : Q :=
  match (x ?= 0)%Q with
  | Eq => 0%Q
  | Gt => Qred (round32_pos x)
  | Lt => Qred (- round32_pos (- x))
  end.

(** [(float)z] for an unsigned 32-bit [z] *)
Definition of_uint32 (z : Z) : Q := round32 (inject_Z z).

(** [x / y] on two floats *)
Definition fdiv32 (x y : Q) : Q := round32 (x / y).

(** The same two operations on the IEEE 754 numbers of the standard
    library, for comparison: binary32 has 24 bits of precision and
    [emax = 128]. *)
Definition SF2Q (f : spec_float) : option Q :=
  match f with
  | S754_zero _ => Some 0%Q
  | S754_finite s m e =>
      Some (Qred ((if s then -1 else 1) * inject_Z (Zpos m) * pow2 e))%Q
  | _ => None
  end.

Definition SF_of_uint32 (z : Z) : spec_float :=
  match z with
  | Z0 => S754_zero false
  | _ => binary_normalize 24 128 z 0 false
  end.

Definition SF_quotient (a t : Z) : option Q :=
  SF2Q (SFdiv 24 128 (SF_of_uint32 a) (SF_of_uint32 t)).

Definition quotients_agree (a t : Z) : bool :=
  match SF_quotient a t with
  | Some q => Qeq_bool q (fdiv32 (of_uint32 a) (of_uint32 t))
  | None => false
  end.

Definition range (n : nat) : list Z := map Z.of_nat (seq 0 n).

(** [DONT_KNOW], that is [(float)-1] *)
Definition DONT_KNOW : Q := inject_Z (-1).

(** [JapaneseContextAnalysis::GetConfidence()]:
    [((float)(mTotalRel - mRelSample[0])) / mTotalRel].  The subtraction is
    unsigned; its result is converted to [float], [mTotalRel] is converted
    to [float] for the division, and the quotient is a [float]. *)
Definition GetConfidence (st : State) : Q :=
  if mDataThreshold st <? mTotalRel st
  then fdiv32 (of_uint32 (wrap32 (mTotalRel st - mRelSample st !!! 0%nat)))
         (of_uint32 (mTotalRel st))
  else DONT_KNOW.

(** ** The scan over one buffer *)

Section Analyser.

(** [MAX_REL_THRESHOLD] is a macro of JpCntx.h; the analyser is modelled for
    any value of it. *)
Variable MAX_REL_THRESHOLD : Z.
Variable e : Encoding.

(** The [for] loop of [HandleData], from offset [i] on, run for at most
    [fuel] iterations.  On a buffer with [aLen + 3 <= 2^32] every iteration
    moves [i] forward without wrapping, and the loop has left through its
    test or its [break] within [aLen - i] iterations: more fuel changes
    nothing ([scan_fuel]).  For the two larger lengths a 32-bit offset has,
    [2^32 - 2] and [2^32 - 1], the addition [i += charLen] can wrap and the
    C++ loop can go on where the fuel ends; such calls are outside the
    model. *)
Fixpoint scan (fuel : nat) (b : Buffer) (i : Z) (st : State) : Rd State :=
  match fuel with
  | O => mret st
  | S fuel =>
    if i <? aLen b then
      r ← GetOrder e (fun k => load b (i + k));
      let order := r.1 in
      let charLen := r.2 in
      let i := wrap32 (i + charLen) in
      if aLen b <? i then
        scan fuel b i
          (set_mLastCharOrder (-1) (set_mNeedToSkipCharNum (i - aLen b) st))
      else if negb (order =? -1) && negb (mLastCharOrder st =? -1) then
        let st := set_mTotalRel (wrap32 (mTotalRel st + 1)) st in
        if MAX_REL_THRESHOLD <? mTotalRel st then mret (set_mDone true st)
        else
          let st :=
            set_mRelSample
              (incr_sample (category (mLastCharOrder st) order)
                 (mRelSample st)) st in
          scan fuel b i (set_mLastCharOrder order st)
      else scan fuel b i (set_mLastCharOrder order st)
    else mret st
  end.

(** [JapaneseContextAnalysis::HandleData(aBuf, aLen)], for a buffer with
    [aLen + 3 <= 2^32].  The fuel [aLen] is then more than the loop uses
    ([HandleData_run]), so that the result is the state the C++ loop leaves
    when it ends. *)
Definition HandleData (st : State) (b : Buffer) : Rd State :=
  if mDone st then mret st
  else scan (length (aBuf b)) b (mNeedToSkipCharNum st) st.

(** The state one call leaves behind, and the state after a sequence of
    calls. *)
Definition ingest (st : State) (b : Buffer) : State :=
  value (HandleData st b).

Definition ingest_all (st : State) (bs : list Buffer) : State :=
  foldl ingest st bs.

End Analyser.

(** The state of a freshly constructed analyser.

    Modelled from the spec: the constructor is declared in JpCntx.h; the
    analysis state is created empty, all fields zero and
    [mLastCharOrder = -1]. *)
Definition initial : State :=
  mkState (replicate NUM_OF_CATEGORY 0) 0 0 (-1) 0 false.

(** A buffer whose length leaves room for the 32-bit offset [i] to step
    over its end without wrapping. *)
Definition chunk_ok (b : Buffer) : Prop := aLen b + 3 <= 2 ^ 32.

(** A state as the C++ object holds it: [mRelSample] is an array of
    [NUM_OF_CATEGORY] counters. *)
Definition typed (st : State) : Prop :=
  length (mRelSample st) = NUM_OF_CATEGORY.


(** Modelled from the spec: [isFinished()] is not part of JpCntx.cpp; it
    reports whether further calls of [HandleData] would have any effect,
    that is, the flag [mDone]. *)
Definition isFinished (st : State) : bool := mDone st.

(** The states an analyser can be in: freshly constructed, after a call of
    [HandleData] on a buffer, after a call of [Reset]. *)
Inductive reachable (M : Z) (e : Encoding) : State → Prop :=
  | reach_initial : reachable M e initial
  | reach_HandleData (st : State) (b : Buffer) :
      reachable M e st → chunk_ok b → reachable M e (ingest M e st b)
  | reach_Reset (st : State) :
      reachable M e st → reachable M e (Reset st).

(** The Shift-JIS bytes of the hiragana of order 1, as a buffer. *)
Definition hiragana_1 : Buffer := mkBuffer [x82; xa0] x00.

(** The analyser after [n + 1] such buffers, one after the other, as long
    as it is not done: [n] pairs, all of category
    [jp2CharContext[1][1] = 4]. *)
Definition after_pairs (n : Z) : State :=
  mkState [0; 0; 0; 0; n; 0] n 0 1 0 false.

(** ** Auxiliary notions of the proofs *)

(** A row of the table holds categories only. *)
Definition row_ok (r : list Z) : bool :=
  forallb (fun v => (0 <=? v) && (v <=? 5)) r.

(** What the decoders compute from the two bytes they may look at. *)
Definition SJIS_charLen (c0 : Z) : Z :=
  if (0x81 <=? c0) && (c0 <=? 0x9f) || (0xe0 <=? c0) && (c0 <=? 0xfc)
  then 2 else 1.

Definition EUCJP_charLen (c0 : Z) : Z :=
  if (c0 =? 0x8e) || (0xa1 <=? c0) && (c0 <=? 0xfe) then 2
  else if c0 =? 0x8f then 3
  else 1.

Definition charLen_of (e : Encoding) : Z → Z :=
  match e with SJIS => SJIS_charLen | EUCJP => EUCJP_charLen end.

(** The lead byte after which [GetOrder] looks at the second byte. *)
Definition hiragana_lead (e : Encoding) : Z :=
  match e with SJIS => 0x82 | EUCJP => 0xa4 end.

(** The decoder's answer at offset [i] of the buffer. *)
Definition decode (e : Encoding) (b : Buffer) (i : Z) : Z * Z :=
  value (GetOrder e (fun k => load b (i + k))).

(** The loop from offset [i] on, with as much fuel as there are bytes
    left. *)
Definition run (M : Z) (e : Encoding) (b : Buffer) (i : Z) (st : State) :
    Rd State :=
  scan M e (Z.to_nat (aLen b - i)) b i st.

(** [lands e l i]: the characters decoded one after the other from offset
    [i] of [l] end exactly at the end of [l]; offset [i] is then the start
    of a character, and no character is cut by the end of [l]. *)
Inductive lands (e : Encoding) (l : list byte) : Z → Prop :=
  | lands_end : lands e l (Z.of_nat (length l))
  | lands_step (i : Z) (c : byte) :
      0 <= i → l !! Z.to_nat i = Some c →
      lands e l (i + charLen_of e (uchar c)) → lands e l i.

(** The buffers of a chunking: the chunks, each with some byte behind
    it. *)
Definition buffers (chunks : list (list byte * byte)) : list Buffer :=
  map (fun c => mkBuffer c.1 c.2) chunks.

(** The stream a chunking cuts up. *)
Definition stream (chunks : list (list byte * byte)) : list byte :=
  concat (map fst chunks).

(** The first [n] bytes of two buffers are the same. *)
Definition agree (n : Z) (b b' : Buffer) : Prop :=
  n <= aLen b ∧ n <= aLen b'
  ∧ ∀ k : nat, Z.of_nat k < n → aBuf b !! k = aBuf b' !! k.


(** What holds of the analyser's state between any two calls. *)
Record Inv (M : Z) (st : State) : Prop := mkInv {
  inv_typed : typed st;
  inv_nonneg : Forall (fun v => 0 <= v) (mRelSample st);
  inv_total :
    mTotalRel st
    = total_samples (mRelSample st) + (if mDone st then 1 else 0);
  inv_bound :
    if mDone st then mTotalRel st = M + 1 else 0 <= mTotalRel st <= M;
  inv_last : mLastCharOrder st = -1 ∨ 0 <= mLastCharOrder st <= 82;
  inv_thr : mDataThreshold st = 0;
  inv_skip : 0 <= mNeedToSkipCharNum st
}.

(** ** Tactics *)

Ltac decoder_cases e :=
  destruct e;
  unfold GetOrder, charLen_of, hiragana_lead, SJIS_GetOrder, EUCJP_GetOrder,
    SJIS_charLen, EUCJP_charLen, mbind, Rd_bind, mret, Rd_ret in *;
  cbn beta zeta iota in *.

Ltac split_ifs :=
  repeat match goal with
  | |- context [if ?c then _ else _] => destruct c eqn:?
  end.

(** Reading a field of an updated state. *)
Ltac st_simpl :=
  unfold typed;
  cbn [mRelSample mTotalRel mDataThreshold mLastCharOrder mNeedToSkipCharNum
       mDone set_mRelSample set_mTotalRel set_mDataThreshold
       set_mLastCharOrder set_mNeedToSkipCharNum set_mDone] in *.

Ltac decide_bounds :=
  repeat match goal with
  | |- context [?a <=? ?b] => destruct (Z.leb_spec a b)
  | |- context [?a =? ?b] => destruct (Z.eqb_spec a b)
  end;
  cbn [andb orb value overread fst snd].

(** Concrete buffers are short enough. *)
Ltac chunks_ok :=
  repeat (apply List.Forall_cons; [unfold chunk_ok, aLen; cbn; lia|]);
  apply List.Forall_nil.

(** * Properties *)

(** ** Bytes, the table and the decoders *)

Lemma uchar_range (c : byte) : 0 <= uchar c < 256.
Proof.
  unfold uchar. pose proof (Byte.to_N_bounded c) as H. lia.
Qed.

Lemma wrap32_small (z : Z) : 0 <= z < 2 ^ 32 → wrap32 z = z.
Proof. intros H. unfold wrap32. apply Z.mod_small. exact H. Qed.

Lemma wrap32_range (z : Z) : 0 <= wrap32 z < 2 ^ 32.
Proof. unfold wrap32. apply Z.mod_pos_bound. lia. Qed.

Lemma row_ok_lookup (r : list Z) (k : nat) :
  row_ok r = true → 0 <= r !!! k <= 5.
Proof.
  revert k. induction r as [|v r IH]; intros k H.
  - rewrite list_lookup_total_alt. simpl. lia.
  - simpl in H. apply andb_true_iff in H as [Hv Hr].
    destruct k as [|k]; simpl.
    + apply andb_true_iff in Hv. lia.
    + apply IH. exact Hr.
Qed.

Lemma table_ok : forallb row_ok jp2CharContext = true.
Proof. vm_compute. reflexivity. Qed.

(** Every cell of the table is a category, 0 to 5. *)
Lemma category_range (a b : Z) : 0 <= category a b <= 5.
Proof.
  unfold category. apply row_ok_lookup.
  generalize (Z.to_nat a) as k. intros k.
  pose proof table_ok as H. rewrite forallb_forall in H.
  destruct (jp2CharContext !! k) as [r|] eqn:E.
  - rewrite (list_lookup_total_correct _ _ _ E).
    apply H. apply list_elem_of_In. eapply list_elem_of_lookup_2. exact E.
  - rewrite list_lookup_total_alt, E. reflexivity.
Qed.

Lemma value_bind {A B} (m : Rd A) (f : A → Rd B) :
  value (m ≫= f) = value (f (value m)).
Proof. reflexivity. Qed.

Lemma overread_bind {A B} (m : Rd A) (f : A → Rd B) :
  overread (m ≫= f) = overread m || overread (f (value m)).
Proof. reflexivity. Qed.

Lemma GetOrder_charLen (e : Encoding) (str : Z → Rd Z) :
  (value (GetOrder e str)).2 = charLen_of e (value (str 0)).
Proof. decoder_cases e; split_ifs; reflexivity. Qed.

Lemma charLen_of_range (e : Encoding) (c0 : Z) : 1 <= charLen_of e c0 <= 3.
Proof. decoder_cases e; split_ifs; lia. Qed.

Lemma charLen_of_lead (e : Encoding) : charLen_of e (hiragana_lead e) = 2.
Proof. destruct e; reflexivity. Qed.

Lemma GetOrder_order (e : Encoding) (str : Z → Rd Z) :
  (value (GetOrder e str)).1 = -1 ∨ 0 <= (value (GetOrder e str)).1 <= 82.
Proof.
  decoder_cases e; split_ifs; cbn [value fst];
    try (left; reflexivity); right; lia.
Qed.

(** [GetOrder] looks at the second byte exactly after a hiragana lead
    byte. *)
Lemma GetOrder_overread (e : Encoding) (str : Z → Rd Z) :
  overread (str 0) = false →
  overread (GetOrder e str)
  = if value (str 0) =? hiragana_lead e then overread (str 1) else false.
Proof.
  intros H0. decoder_cases e; cbn [overread]; rewrite H0;
    split_ifs; cbn [overread orb]; try reflexivity; apply orb_false_r.
Qed.

(** The decoder's result, and what it reads, is determined by the read of
    the first byte and, after a hiragana lead byte, that of the second. *)
Lemma GetOrder_ext (e : Encoding) (str str' : Z → Rd Z) :
  str 0 = str' 0 →
  (value (str 0) = hiragana_lead e → str 1 = str' 1) →
  GetOrder e str = GetOrder e str'.
Proof.
  intros H0 H1. decoder_cases e; rewrite <- H0.
  - destruct (Z.eqb_spec (value (str 0)) 130) as [E|E]; [|reflexivity].
    rewrite <- (H1 E). reflexivity.
  - destruct (Z.eqb_spec (value (str 0)) 164) as [E|E]; [|reflexivity].
    rewrite <- (H1 E). reflexivity.
Qed.

(** ** One iteration of the loop *)

Section Scan.

Variable M : Z.
Variable e : Encoding.

Lemma scan_S (fuel : nat) (b : Buffer) (i : Z) (st : State) :
  value (scan M e (S fuel) b i st)
  = if i <? aLen b then
      let i' := wrap32 (i + (decode e b i).2) in
      if aLen b <? i' then
        value (scan M e fuel b i'
          (set_mLastCharOrder (-1)
             (set_mNeedToSkipCharNum (i' - aLen b) st)))
      else if negb ((decode e b i).1 =? -1) && negb (mLastCharOrder st =? -1)
      then
        if M <? wrap32 (mTotalRel st + 1)
        then set_mDone true (set_mTotalRel (wrap32 (mTotalRel st + 1)) st)
        else
          value (scan M e fuel b i'
            (set_mLastCharOrder (decode e b i).1
               (set_mRelSample
                  (incr_sample (category (mLastCharOrder st) (decode e b i).1)
                     (mRelSample st))
                  (set_mTotalRel (wrap32 (mTotalRel st + 1)) st))))
      else value (scan M e fuel b i' (set_mLastCharOrder (decode e b i).1 st))
    else st.
Proof.
  cbn [scan]. unfold decode.
  destruct (i <? aLen b); [|reflexivity].
  rewrite value_bind. cbn beta zeta.
  change (mTotalRel (set_mTotalRel (wrap32 (mTotalRel st + 1)) st))
    with (wrap32 (mTotalRel st + 1)).
  split_ifs; reflexivity.
Qed.

Lemma decode_charLen (b : Buffer) (i : Z) :
  1 <= (decode e b i).2 <= 3.
Proof. unfold decode. rewrite GetOrder_charLen. apply charLen_of_range. Qed.

Lemma decode_order (b : Buffer) (i : Z) :
  (decode e b i).1 = -1 ∨ 0 <= (decode e b i).1 <= 82.
Proof. apply GetOrder_order. Qed.

End Scan.

(** ** The category counters *)

Lemma total_samples_insert (l : list Z) (k : nat) (v : Z) :
  (k < length l)%nat →
  total_samples (<[k := v]> l) = total_samples l - l !!! k + v.
Proof.
  revert k. induction l as [|x l IH]; intros k Hk; simpl in Hk; [lia|].
  destruct k as [|k].
  - cbn; fold (total_samples l). lia.
  - rewrite lookup_total_cons_ne_0 by lia. cbn [Nat.pred].
    change (total_samples (<[S k := v]> (x :: l)))
      with (x + total_samples (<[k := v]> l)).
    change (total_samples (x :: l)) with (x + total_samples l).
    rewrite IH by lia. lia.
Qed.

Lemma total_samples_ge (l : list Z) (k : nat) :
  Forall (fun v => 0 <= v) l → (k < length l)%nat →
  0 <= l !!! k <= total_samples l.
Proof.
  intros H. revert k. induction H as [|x l Hx Hl IH]; intros k Hk;
    simpl in Hk; [lia|].
  change (total_samples (x :: l)) with (x + total_samples l).
  assert (0 <= total_samples l) as Hs.
  { clear IH Hk. induction Hl as [|y l Hy Hl IH]; [reflexivity|].
    change (total_samples (y :: l)) with (y + total_samples l). lia. }
  destruct k as [|k].
  - cbn. lia.
  - rewrite lookup_total_cons_ne_0 by lia. cbn [Nat.pred].
    specialize (IH k). lia.
Qed.

Lemma incr_sample_length (k : Z) (l : list Z) :
  length (incr_sample k l) = length l.
Proof. unfold incr_sample. apply length_insert. Qed.

Lemma incr_sample_nonneg (k : Z) (l : list Z) :
  Forall (fun v => 0 <= v) l → Forall (fun v => 0 <= v) (incr_sample k l).
Proof.
  intros H. unfold incr_sample. apply Forall_insert; [exact H|].
  apply wrap32_range.
Qed.

(** Below the 32-bit limit, counting a pair adds one to the sum of the
    counters. *)
Lemma incr_sample_total (k : Z) (l : list Z) :
  0 <= k < Z.of_nat (length l) →
  Forall (fun v => 0 <= v) l →
  total_samples l + 1 < 2 ^ 32 →
  total_samples (incr_sample k l) = total_samples l + 1.
Proof.
  intros Hk Hl Hs. unfold incr_sample.
  rewrite total_samples_insert by lia.
  pose proof (total_samples_ge l (Z.to_nat k) Hl).
  rewrite wrap32_small by lia. lia.
Qed.

(** ** The invariant of the analyser *)

Lemma Inv_initial (M : Z) : 0 <= M → Inv M initial.
Proof.
  intros HM. split; cbn; try reflexivity; try lia.
  repeat (constructor; [lia|]). constructor.
Qed.

Section Invariant.

Variable M : Z.
Variable e : Encoding.
Hypothesis M_ok : 0 <= M < 2 ^ 32 - 1.

Lemma scan_Inv (fuel : nat) (b : Buffer) :
  ∀ (i : Z) (st : State),
    Inv M st → mDone st = false → Inv M (value (scan M e fuel b i st)).
Proof.
  induction fuel as [|fuel IH]; intros i st HI Hd; [exact HI|].
  rewrite scan_S.
  destruct HI as [Hty Hnn Htot Hbd Hlast Hthr Hskip]. rewrite Hd in Htot, Hbd.
  destruct (i <? aLen b); [|split; try rewrite Hd; assumption].
  cbn zeta.
  destruct (Z.ltb_spec (aLen b) (wrap32 (i + (decode e b i).2))).
  { apply IH; [|exact Hd].
    split; st_simpl; try rewrite Hd; try assumption; [|lia].
    left; reflexivity. }
  pose proof (decode_order e b i) as Hord.
  destruct (negb (_ =? -1) && negb (_ =? -1)) eqn:Hpair.
  - rewrite wrap32_small by lia.
    destruct (Z.ltb_spec M (mTotalRel st + 1)).
    + split; st_simpl; try assumption; lia.
    + apply IH; [|exact Hd].
      apply andb_true_iff in Hpair as [Ho Hl].
      apply negb_true_iff, Z.eqb_neq in Ho, Hl.
      pose proof (category_range (mLastCharOrder st) (decode e b i).1) as Hc.
      split; st_simpl; try rewrite Hd.
      * rewrite incr_sample_length. exact Hty.
      * apply incr_sample_nonneg. exact Hnn.
      * rewrite incr_sample_total; [lia| |exact Hnn|lia].
        rewrite Hty. change (Z.of_nat NUM_OF_CATEGORY) with 6. lia.
      * lia.
      * destruct Hord as [Hord|Hord]; [contradiction|right; exact Hord].
      * exact Hthr.
      * exact Hskip.
  - apply IH; [|exact Hd].
    split; st_simpl; try rewrite Hd; assumption.
Qed.

Lemma ingest_Inv (st : State) (b : Buffer) :
  Inv M st → Inv M (ingest M e st b).
Proof.
  intros HI. unfold ingest, HandleData.
  destruct (mDone st) eqn:Hd; [exact HI|].
  apply scan_Inv; assumption.
Qed.

Lemma ingest_all_Inv (bs : list Buffer) :
  ∀ st : State, Inv M st → Inv M (ingest_all M e st bs).
Proof.
  induction bs as [|b bs IH]; intros st HI; [exact HI|].
  apply IH, ingest_Inv, HI.
Qed.

End Invariant.

(** ** The decoders on a two-byte buffer *)

Lemma load_0 (c0 : byte) (l : list byte) (p : byte) :
  load (mkBuffer (c0 :: l) p) 0 = mkRd (uchar c0) false.
Proof. reflexivity. Qed.

Lemma load_1 (c0 c1 : byte) (l : list byte) (p : byte) :
  load (mkBuffer (c0 :: c1 :: l) p) 1 = mkRd (uchar c1) false.
Proof. reflexivity. Qed.

(** C8.  On a buffer of two bytes the Shift-JIS decoder reads inside the
    buffer only; it reports a length of 2 exactly when the first byte lies
    in 0x81..0x9F or 0xE0..0xFC, and of 1 otherwise; it reports the order
    [second byte - 0x9F] when the first byte is 0x82 and the second lies in
    0x9F..0xF1, and -1 in every other case; so the order is -1 or one of
    0..82, and it differs from -1 exactly in the hiragana case. *)
Theorem SJIS_GetOrder_two_bytes (c0 c1 p : byte) :
  let r := SJIS_GetOrder (load (mkBuffer [c0; c1] p)) in
  let hira := uchar c0 = 0x82 ∧ 0x9f <= uchar c1 <= 0xf1 in
  overread r = false
  ∧ ((value r).2 = 2
     ↔ 0x81 <= uchar c0 <= 0x9f ∨ 0xe0 <= uchar c0 <= 0xfc)
  ∧ ((value r).2 = 1
     ↔ ¬ (0x81 <= uchar c0 <= 0x9f ∨ 0xe0 <= uchar c0 <= 0xfc))
  ∧ (hira → (value r).1 = uchar c1 - 0x9f)
  ∧ (¬ hira → (value r).1 = -1)
  ∧ ((value r).1 ≠ -1 ↔ hira)
  ∧ ((value r).1 = -1 ∨ 0 <= (value r).1 <= 82).
Proof.
  cbn zeta. unfold SJIS_GetOrder, mbind, Rd_bind, mret, Rd_ret.
  rewrite load_0, load_1. cbn beta zeta iota. cbn [value overread].
  generalize (uchar c0) (uchar c1). intros u0 u1.
  decide_bounds; repeat split; intros; try reflexivity; lia.
Qed.

(** C9.  On a buffer of two bytes the EUC-JP decoder reads inside the
    buffer only; it reports a length of 2 exactly when the first byte is
    0x8E or lies in 0xA1..0xFE, of 3 exactly when it is 0x8F, and of 1
    otherwise; it reports the order [second byte - 0xA1] when the first
    byte is 0xA4 and the second lies in 0xA1..0xF3, and -1 in every other
    case; so the order is -1 or one of 0..82, and it differs from -1 exactly
    in the hiragana case. *)
Theorem EUCJP_GetOrder_two_bytes (c0 c1 p : byte) :
  let r := EUCJP_GetOrder (load (mkBuffer [c0; c1] p)) in
  let hira := uchar c0 = 0xa4 ∧ 0xa1 <= uchar c1 <= 0xf3 in
  overread r = false
  ∧ ((value r).2 = 2 ↔ uchar c0 = 0x8e ∨ 0xa1 <= uchar c0 <= 0xfe)
  ∧ ((value r).2 = 3 ↔ uchar c0 = 0x8f)
  ∧ ((value r).2 = 1
     ↔ ¬ (uchar c0 = 0x8e ∨ 0xa1 <= uchar c0 <= 0xfe) ∧ uchar c0 ≠ 0x8f)
  ∧ (hira → (value r).1 = uchar c1 - 0xa1)
  ∧ (¬ hira → (value r).1 = -1)
  ∧ ((value r).1 ≠ -1 ↔ hira)
  ∧ ((value r).1 = -1 ∨ 0 <= (value r).1 <= 82).
Proof.
  cbn zeta. unfold EUCJP_GetOrder, mbind, Rd_bind, mret, Rd_ret.
  rewrite load_0, load_1. cbn beta zeta iota. cbn [value overread].
  generalize (uchar c0) (uchar c1). intros u0 u1.
  decide_bounds; repeat split; intros; try reflexivity; lia.
Qed.

(** ** Reset *)

Lemma Reset_typed (st : State) : typed st → Reset st = initial.
Proof.
  unfold typed. destruct st as [l t d o n f]. cbn [mRelSample].
  intros H.
  do 7 (destruct l as [|? l]; try discriminate H).
  reflexivity.
Qed.

(** C6, as the code has it.  On every state whose [mRelSample] is the
    array of six counters, [Reset] sets [mTotalRel] to 0, the six counters
    to 0, [mNeedToSkipCharNum] to 0, [mLastCharOrder] to -1, [mDone] to
    false, and also [mDataThreshold] to 0. *)
Theorem Reset_restores (st : State) :
  typed st →
  mTotalRel (Reset st) = 0
  ∧ mRelSample (Reset st) = [0; 0; 0; 0; 0; 0]
  ∧ mNeedToSkipCharNum (Reset st) = 0
  ∧ mLastCharOrder (Reset st) = -1
  ∧ mDone (Reset st) = false
  ∧ mDataThreshold (Reset st) = 0.
Proof.
  intros H. rewrite (Reset_typed st H). repeat split.
Qed.

Lemma Reset_restores_witness :
  let st := mkState [3; 0; 1; 0; 2; 0] 6 4 7 1 true in
  typed st ∧ Reset st = initial ∧ mDataThreshold (Reset st) = 0.
Proof.
  cbn zeta. split; [reflexivity|]. split; [reflexivity|].
  apply (Reset_restores (mkState [3; 0; 1; 0; 2; 0] 6 4 7 1 true)).
  reflexivity.
Defined.

(** C6 as stated fails: [Reset] does not leave [mDataThreshold] as it
    was. *)
Lemma Reset_changes_threshold :
  let st :=
    mkState [0; 0; 0; 0; 0; 0] 0 MINIMUM_DATA_THRESHOLD (-1) 0 false in
  typed st
  ∧ mDataThreshold (Reset st) = 0
  ∧ mDataThreshold (Reset st) ≠ mDataThreshold st.
Proof. cbn zeta. repeat split. cbn. discriminate. Qed.

(** ** The terminal state *)

Lemma ingest_done (M : Z) (e : Encoding) (st : State) (b : Buffer) :
  mDone st = true → HandleData M e st b = mret st.
Proof. intros H. unfold HandleData. rewrite H. reflexivity. Qed.

Lemma ingest_all_done (M : Z) (e : Encoding) (bs : list Buffer) :
  ∀ st : State, mDone st = true → ingest_all M e st bs = st.
Proof.
  induction bs as [|b bs IH]; intros st H; [reflexivity|].
  unfold ingest_all in *. cbn [foldl]. unfold ingest at 2.
  rewrite ingest_done by exact H. apply IH, H.
Qed.

(** C7.  Once [mDone] is set, every further call of [HandleData], on any
    buffer, returns at once: it reads nothing and leaves the whole state as
    it was.  So after any sequence of calls the state is the same,
    [GetConfidence] gives the same value, [isFinished] still reports true;
    and [Reset] clears the flag. *)
Theorem done_is_terminal (M : Z) (e : Encoding) (st : State)
    (bs : list Buffer) :
  mDone st = true →
  Forall (fun b => HandleData M e st b = mkRd st false) bs
  ∧ ingest_all M e st bs = st
  ∧ GetConfidence (ingest_all M e st bs) = GetConfidence st
  ∧ isFinished (ingest_all M e st bs) = true
  ∧ isFinished (Reset (ingest_all M e st bs)) = false.
Proof.
  intros H.
  pose proof (ingest_all_done M e bs st H) as Hall.
  split; [|rewrite Hall; repeat split; exact H].
  apply Forall_forall. intros b _. apply ingest_done, H.
Qed.

Lemma done_is_terminal_witness :
  let st := mkState [0; 0; 0; 0; 1000; 0] 1001 0 1 0 true in
  let bs := [mkBuffer [x82; xa0; x82; xa0] x00; mkBuffer [x82] x00] in
  mDone st = true
  ∧ ingest_all 1000 SJIS st bs = st
  ∧ GetConfidence (ingest_all 1000 SJIS st bs) = GetConfidence st.
Proof.
  cbn zeta. split; [reflexivity|].
  pose proof
    (done_is_terminal 1000 SJIS
       (mkState [0; 0; 0; 0; 1000; 0] 1001 0 1 0 true)
       [mkBuffer [x82; xa0; x82; xa0] x00; mkBuffer [x82] x00] eq_refl)
    as H.
  split; [apply H|apply H].
Defined.

(** ** Reachable states *)

Lemma reachable_Inv (M : Z) (e : Encoding) (st : State) :
  0 <= M < 2 ^ 32 - 1 → reachable M e st → Inv M st.
Proof.
  intros HM H. induction H as [|st b _ IH _|st _ IH].
  - apply Inv_initial. lia.
  - apply ingest_Inv; assumption.
  - rewrite Reset_typed by apply IH. apply Inv_initial. lia.
Qed.

Lemma ingest_all_reachable (M : Z) (e : Encoding) (bs : list Buffer) :
  Forall chunk_ok bs →
  ∀ st : State, reachable M e st → reachable M e (ingest_all M e st bs).
Proof.
  induction 1 as [|b bs Hb _ IH]; intros st Hst; [exact Hst|].
  apply IH. apply reach_HandleData; assumption.
Qed.

(** ** The relation count and the category counters *)

(** C1, as the code has it.  After every sequence of calls of [HandleData]
    on a fresh analyser, on buffers within the 32-bit bound, [mTotalRel] is
    the sum of the six counters of [mRelSample] as long as [mDone] is false;
    in the state where [mDone] is true it is that sum plus one, and
    [MAX_REL_THRESHOLD] plus one: the pair that exceeded the bound has been
    counted in [mTotalRel] only. *)
Theorem total_counts_pairs (M : Z) (e : Encoding) (bs : list Buffer) :
  0 <= M < 2 ^ 32 - 1 →
  Forall chunk_ok bs →
  let st := ingest_all M e initial bs in
  (mDone st = false → mTotalRel st = total_samples (mRelSample st))
  ∧ (mDone st = true →
     mTotalRel st = total_samples (mRelSample st) + 1
     ∧ mTotalRel st = M + 1).
Proof.
  intros HM Hbs st.
  assert (Inv M st) as [_ _ Htot Hbd _ _ _].
  { apply ingest_all_Inv; [exact HM|]. apply Inv_initial. lia. }
  split; intros Hd; rewrite Hd in Htot, Hbd; [lia|split; [exact Htot|exact Hbd]].
Qed.

Lemma total_counts_pairs_witness :
  let bs :=
    [mkBuffer [x82; xa0; x82] x00; mkBuffer [xa2; x82; xa0; x82; xa2] x00] in
  let st := ingest_all 1000 SJIS initial bs in
  (0 <= 1000 < 2 ^ 32 - 1 ∧ Forall chunk_ok bs)
  ∧ (mDone st = false → mTotalRel st = total_samples (mRelSample st))
  ∧ (mDone st = true →
     mTotalRel st = total_samples (mRelSample st) + 1
     ∧ mTotalRel st = 1000 + 1).
Proof.
  cbn zeta.
  assert (0 <= 1000 < 2 ^ 32 - 1) as HM by lia.
  assert (Forall chunk_ok
    [mkBuffer [x82; xa0; x82] x00; mkBuffer [xa2; x82; xa0; x82; xa2] x00])
    as Hbs by chunks_ok.
  split; [split; assumption|].
  exact (total_counts_pairs 1000 SJIS _ HM Hbs).
Defined.

(** C1 as stated fails in the state where [mDone] has just become true:
    with a bound of 1000, after 1002 hiragana the count is 1001 and the
    counters sum to 1000.  The same happens whatever the bound, see
    [bound_reached]. *)
Lemma total_exceeds_samples_when_done :
  let st :=
    ingest_all 1000 SJIS initial (replicate 1002 (mkBuffer [x82; xa0] x00))
  in
  mDone st = true
  ∧ mTotalRel st = 1001
  ∧ total_samples (mRelSample st) = 1000
  ∧ mTotalRel st ≠ total_samples (mRelSample st).
Proof. vm_compute. repeat split; discriminate. Qed.

(** ** Single-precision rounding *)

Section Binary32.

Local Open Scope Q_scope.

Lemma pow2_pos (z : Z) : 0 < pow2 z.
Proof. apply Qpower_0_lt. reflexivity. Qed.

Lemma pow2_add (a b : Z) : pow2 (a + b) == pow2 a * pow2 b.
Proof. apply Qpower_plus. discriminate. Qed.

Lemma pow2_le (a b : Z) : (a <= b)%Z → pow2 a <= pow2 b.
Proof. intros H. apply Qpower_le_compat_l; [exact H|discriminate]. Qed.

Lemma pow2_lt_inv (a b : Z) : pow2 a < pow2 b → (a < b)%Z.
Proof. intros H. eapply Qpower_lt_compat_l_inv; [exact H|reflexivity]. Qed.

Lemma pow2_Z (z : Z) : (0 <= z)%Z → pow2 z == inject_Z (2 ^ z).
Proof. intros H. unfold pow2. rewrite Zpower_Qpower by exact H. reflexivity. Qed.

Lemma Q_num_den (x : Q) : x * inject_Z (Zpos (Qden x)) == inject_Z (Qnum x).
Proof.
  destruct x as [n d]. unfold Qeq, Qmult, inject_Z. cbn. lia.
Qed.

Lemma mag_spec (x : Q) : 0 < x → pow2 (mag x) <= x ∧ x < pow2 (mag x + 1).
Proof.
  intros Hx.
  assert (0 < Qnum x)%Z as Hn.
  { destruct x as [n d]. unfold Qlt in Hx. cbn in *. lia. }
  set (L := Z.log2 (Qnum x)). set (D := Z.log2 (Zpos (Qden x))).
  destruct (Z.log2_spec (Qnum x) Hn) as [HL1 HL2]. fold L in HL1, HL2.
  destruct (Z.log2_spec (Zpos (Qden x)) ltac:(lia)) as [HD1 HD2].
  fold D in HD1, HD2.
  assert (0 <= L)%Z as HL0 by apply Z.log2_nonneg.
  assert (0 <= D)%Z as HD0 by apply Z.log2_nonneg.
  assert (x < pow2 (L - D + 1)) as Hup.
  { apply (Qmult_lt_r _ _ (pow2 D)); [apply pow2_pos|].
    rewrite <- pow2_add. replace (L - D + 1 + D)%Z with (Z.succ L) by lia.
    rewrite !pow2_Z by lia.
    apply Qle_lt_trans with (x * inject_Z (Zpos (Qden x))).
    - apply Qmult_le_l; [exact Hx|]. rewrite <- Zle_Qle. exact HD1.
    - rewrite Q_num_den. rewrite <- Zlt_Qlt. exact HL2. }
  assert (pow2 (L - D - 1) <= x) as Hlow.
  { apply (Qmult_le_r _ _ (pow2 (D + 1))); [apply pow2_pos|].
    rewrite <- pow2_add. replace (L - D - 1 + (D + 1))%Z with L by lia.
    rewrite !pow2_Z by lia.
    apply Qle_trans with (x * inject_Z (Zpos (Qden x))).
    - rewrite Q_num_den. rewrite <- Zle_Qle. exact HL1.
    - apply Qmult_le_l; [exact Hx|]. rewrite <- Zle_Qle.
      replace (D + 1)%Z with (Z.succ D) by lia. lia. }
  unfold mag. fold L D.
  destruct (Qle_bool (pow2 (L - D)) x) eqn:E.
  - apply Qle_bool_iff in E. split; assumption.
  - split; [exact Hlow|].
    replace (L - D - 1 + 1)%Z with (L - D)%Z by lia.
    apply Qnot_le_lt. intros H. apply Qle_bool_iff in H. congruence.
Qed.

Lemma mag_unique (x : Q) (k : Z) : pow2 k <= x → x < pow2 (k + 1) → mag x = k.
Proof.
  intros H1 H2.
  assert (0 < x) as Hx by (eapply Qlt_le_trans; [apply pow2_pos|exact H1]).
  destruct (mag_spec x Hx) as [M1 M2].
  assert (mag x < k + 1)%Z
    by (apply pow2_lt_inv; eapply Qle_lt_trans; eassumption).
  assert (k < mag x + 1)%Z
    by (apply pow2_lt_inv; eapply Qle_lt_trans; eassumption).
  lia.
Qed.

Lemma mag_le (x y : Q) : 0 < x → x <= y → (mag x <= mag y)%Z.
Proof.
  intros Hx Hxy.
  assert (0 < y) as Hy by (eapply Qlt_le_trans; eassumption).
  destruct (mag_spec x Hx) as [M1 _]. destruct (mag_spec y Hy) as [_ M2].
  assert (mag x < mag y + 1)%Z; [|lia].
  apply pow2_lt_inv. eapply Qle_lt_trans; [exact M1|].
  eapply Qle_lt_trans; eassumption.
Qed.

Lemma rne_floor (y : Q) : (Qfloor y <= rne y <= Qfloor y + 1)%Z.
Proof.
  unfold rne. destruct (y - inject_Z (Qfloor y) ?= 1 # 2);
    [destruct (Z.even (Qfloor y))|..]; lia.
Qed.

Lemma rne_Z (z : Z) : rne (inject_Z z) = z.
Proof.
  unfold rne. rewrite Qfloor_Z.
  assert (inject_Z z - inject_Z z < 1 # 2) as H.
  { unfold Qlt, Qminus, Qplus, Qopp, inject_Z. cbn. lia. }
  destruct (Qcompare_spec (inject_Z z - inject_Z z) (1 # 2)) as [A|A|A];
    [exfalso|reflexivity|exfalso].
  - rewrite A in H. exact (Qlt_irrefl _ H).
  - exact (Qlt_irrefl _ (Qlt_trans _ _ _ A H)).
Qed.

Lemma rne_mono (x y : Q) : x <= y → (rne x <= rne y)%Z.
Proof.
  intros Hxy. pose proof (Qfloor_resp_le x y Hxy) as Hf.
  pose proof (rne_floor x). pose proof (rne_floor y).
  destruct (Z.eq_dec (Qfloor x) (Qfloor y)) as [E|E]; [|lia].
  unfold rne in *. rewrite E in *.
  assert (x - inject_Z (Qfloor y) <= y - inject_Z (Qfloor y)) as Hr.
  { apply Qplus_le_l. exact Hxy. }
  destruct (Qcompare_spec (x - inject_Z (Qfloor y)) (1 # 2)) as [A|A|A];
    destruct (Qcompare_spec (y - inject_Z (Qfloor y)) (1 # 2)) as [B|B|B];
    try lia; try (destruct (Z.even (Qfloor y)); lia); exfalso.
  - rewrite A in Hr. apply (Qlt_irrefl (1 # 2)).
    eapply Qle_lt_trans; eassumption.
  - rewrite B in Hr. apply (Qlt_irrefl (1 # 2)).
    eapply Qlt_le_trans; eassumption.
  - apply (Qlt_irrefl (1 # 2)).
    eapply Qlt_trans; [exact A|]. eapply Qle_lt_trans; eassumption.
Qed.

Lemma div_pow2 (x : Q) (z : Z) : x / pow2 z == x * pow2 (- z).
Proof. unfold Qdiv, pow2. rewrite Qpower_opp. reflexivity. Qed.

(** The scaled value lies in the range of 24-bit mantissas. *)
Lemma scaled_range (x : Q) :
  0 < x →
  inject_Z (2 ^ 23) <= x / pow2 (mag x - 23)
  ∧ x / pow2 (mag x - 23) <= inject_Z (2 ^ 24).
Proof.
  intros Hx. destruct (mag_spec x Hx) as [H1 H2].
  rewrite div_pow2. rewrite <- !pow2_Z by lia. split.
  - setoid_replace (pow2 23) with (pow2 (mag x) * pow2 (- (mag x - 23))) using relation Qeq.
    + apply Qmult_le_compat_r; [exact H1|]. apply Qlt_le_weak, pow2_pos.
    + rewrite <- pow2_add. replace (mag x + - (mag x - 23))%Z with 23%Z by lia.
      reflexivity.
  - setoid_replace (pow2 24) with (pow2 (mag x + 1) * pow2 (- (mag x - 23))) using relation Qeq.
    + apply Qmult_le_compat_r; [apply Qlt_le_weak, H2|].
      apply Qlt_le_weak, pow2_pos.
    + rewrite <- pow2_add.
      replace (mag x + 1 + - (mag x - 23))%Z with 24%Z by lia. reflexivity.
Qed.

Lemma round32_pos_lower (x : Q) : 0 < x → pow2 (mag x) <= round32_pos x.
Proof.
  intros Hx. destruct (scaled_range x Hx) as [H _].
  unfold round32_pos. cbn zeta.
  setoid_replace (pow2 (mag x)) with (inject_Z (2 ^ 23) * pow2 (mag x - 23))
    using relation Qeq.
  - apply Qmult_le_compat_r; [|apply Qlt_le_weak, pow2_pos].
    rewrite <- Zle_Qle. rewrite <- (rne_Z (2 ^ 23)). apply rne_mono, H.
  - rewrite <- pow2_Z by lia. rewrite <- pow2_add.
    replace (23 + (mag x - 23))%Z with (mag x) by lia. reflexivity.
Qed.

Lemma round32_pos_upper (x : Q) : 0 < x → round32_pos x <= pow2 (mag x + 1).
Proof.
  intros Hx. destruct (scaled_range x Hx) as [_ H].
  unfold round32_pos. cbn zeta.
  setoid_replace (pow2 (mag x + 1))
    with (inject_Z (2 ^ 24) * pow2 (mag x - 23)) using relation Qeq.
  - apply Qmult_le_compat_r; [|apply Qlt_le_weak, pow2_pos].
    rewrite <- Zle_Qle. rewrite <- (rne_Z (2 ^ 24)). apply rne_mono, H.
  - rewrite <- pow2_Z by lia. rewrite <- pow2_add.
    replace (24 + (mag x - 23))%Z with (mag x + 1)%Z by lia. reflexivity.
Qed.

Lemma round32_pos_mono (x y : Q) :
  0 < x → x <= y → round32_pos x <= round32_pos y.
Proof.
  intros Hx Hxy.
  assert (0 < y) as Hy by (eapply Qlt_le_trans; eassumption).
  pose proof (mag_le x y Hx Hxy) as Hm.
  destruct (Z.eq_dec (mag x) (mag y)) as [E|E].
  - unfold round32_pos. cbn zeta. rewrite E.
    apply Qmult_le_compat_r; [|apply Qlt_le_weak, pow2_pos].
    rewrite <- Zle_Qle. apply rne_mono.
    apply Qmult_le_compat_r; [exact Hxy|].
    apply Qlt_le_weak, Qinv_lt_0_compat, pow2_pos.
  - eapply Qle_trans; [apply round32_pos_upper, Hx|].
    eapply Qle_trans; [|apply round32_pos_lower, Hy].
    apply pow2_le. lia.
Qed.

Lemma round32_gt (x : Q) : 0 < x → round32 x == round32_pos x.
Proof.
  intros Hx. unfold round32.
  destruct (Qcompare_spec x 0) as [A|A|A].
  - rewrite A in Hx. destruct (Qlt_irrefl _ Hx).
  - destruct (Qlt_irrefl _ (Qlt_trans _ _ _ A Hx)).
  - apply Qred_correct.
Qed.

Lemma round32_zero (x : Q) : x == 0 → round32 x = 0.
Proof.
  intros Hx. unfold round32.
  destruct (Qcompare_spec x 0) as [A|A|A]; [reflexivity|exfalso..];
    rewrite Hx in A; exact (Qlt_irrefl _ A).
Qed.

Lemma round32_pos_gt (x : Q) : 0 < x → 0 < round32 x.
Proof.
  intros Hx. rewrite round32_gt by exact Hx.
  eapply Qlt_le_trans; [apply pow2_pos|apply round32_pos_lower, Hx].
Qed.

Lemma round32_nonneg (x : Q) : 0 <= x → 0 <= round32 x.
Proof.
  intros Hx. destruct (Qlt_le_dec 0 x) as [H|H].
  - apply Qlt_le_weak, round32_pos_gt, H.
  - rewrite round32_zero; [apply Qle_refl|]. apply Qle_antisym; assumption.
Qed.

(** Rounding to binary32 is monotone. *)
Lemma round32_mono (x y : Q) : 0 <= x → x <= y → round32 x <= round32 y.
Proof.
  intros Hx Hxy. destruct (Qlt_le_dec 0 x) as [H|H].
  - assert (0 < y) as Hy by (eapply Qlt_le_trans; eassumption).
    rewrite !round32_gt by assumption. apply round32_pos_mono; assumption.
  - rewrite (round32_zero x) by (apply Qle_antisym; assumption).
    apply round32_nonneg. eapply Qle_trans; eassumption.
Qed.

(** Integers of at most 24 bits are binary32 numbers. *)
Lemma round32_exact (z : Z) :
  (0 <= z <= 2 ^ 24)%Z → round32 (inject_Z z) == inject_Z z.
Proof.
  intros Hz. destruct (Z.eq_dec z 0%Z) as [->|Hne]; [reflexivity|].
  assert (0 < inject_Z z) as Hx by (rewrite <- (Zlt_Qlt 0); lia).
  rewrite round32_gt by exact Hx. unfold round32_pos. cbn zeta.
  destruct (mag_spec _ Hx) as [H1 H2].
  assert (mag (inject_Z z) <= 24)%Z as Hm.
  { assert (mag (inject_Z z) < 25)%Z; [|lia]. apply pow2_lt_inv.
    eapply Qle_lt_trans; [exact H1|].
    rewrite (pow2_Z 25) by lia. rewrite <- Zlt_Qlt. lia. }
  destruct (Z.eq_dec (mag (inject_Z z)) 24%Z) as [E|E].
  - rewrite E in *. rewrite (pow2_Z 24) in H1 by lia.
    rewrite <- Zle_Qle in H1. assert (z = 2 ^ 24)%Z as -> by lia.
    reflexivity.
  - set (s := (23 - mag (inject_Z z))%Z).
    assert (0 <= s)%Z as Hs by (unfold s; lia).
    assert (inject_Z z / pow2 (mag (inject_Z z) - 23)
            == inject_Z (z * 2 ^ s)) as Hq.
    { rewrite div_pow2.
      replace (- (mag (inject_Z z) - 23))%Z with s by (unfold s; lia).
      rewrite pow2_Z by exact Hs. rewrite inject_Z_mult. reflexivity. }
    assert (rne (inject_Z z / pow2 (mag (inject_Z z) - 23)) = (z * 2 ^ s)%Z)
      as Hr.
    { assert (inject_Z z / pow2 (mag (inject_Z z) - 23)
              <= inject_Z (z * 2 ^ s)) as A by (rewrite Hq; apply Qle_refl).
      assert (inject_Z (z * 2 ^ s)
              <= inject_Z z / pow2 (mag (inject_Z z) - 23)) as B
        by (rewrite Hq; apply Qle_refl).
      apply rne_mono in A, B. rewrite rne_Z in A, B. lia. }
    rewrite Hr. rewrite inject_Z_mult, <- pow2_Z by exact Hs.
    rewrite <- Qmult_assoc, <- pow2_add.
    replace (s + (mag (inject_Z z) - 23))%Z with 0%Z by (unfold s; lia).
    change (pow2 0) with 1. ring.
Qed.

(** Rounding respects equality of rationals. *)
Lemma round32_eq (x y : Q) : 0 <= x → x == y → round32 x == round32 y.
Proof.
  intros Hx E. apply Qle_antisym; apply round32_mono;
    rewrite ?E; try apply Qle_refl; rewrite <- ?E; exact Hx.
Qed.

Lemma round32_one : round32 1 = 1.
Proof. reflexivity. Qed.

(** The nearest integer is at most one half away. *)
Lemma rne_near (y : Q) :
  y - (1 # 2) <= inject_Z (rne y) ∧ inject_Z (rne y) <= y + (1 # 2).
Proof.
  pose proof (Qfloor_le y) as H1. pose proof (Qlt_floor y) as H2.
  unfold rne. cbn zeta.
  destruct (Qcompare_spec (y - inject_Z (Qfloor y)) (1 # 2)) as [A|A|A];
    [destruct (Z.even (Qfloor y))| |];
    revert H1 H2 A; generalize (Qfloor y); intros f; destruct y as [n d];
    unfold Qeq, Qle, Qlt, Qminus, Qplus, Qopp, inject_Z; cbn; lia.
Qed.

(** Rounding moves a positive number by at most half a unit in the last
    place. *)
Lemma round32_pos_near (x : Q) :
  0 < x →
  x - pow2 (mag x - 24) <= round32_pos x
  ∧ round32_pos x <= x + pow2 (mag x - 24).
Proof.
  intros Hx. unfold round32_pos. cbn zeta.
  set (u := pow2 (mag x - 23)).
  assert (0 < u) as Hu by apply pow2_pos.
  assert (pow2 (mag x - 24) == (1 # 2) * u) as Hh.
  { unfold u. replace (mag x - 23)%Z with (1 + (mag x - 24))%Z by lia.
    rewrite pow2_add. change (pow2 1) with (2 # 1). field. }
  assert (x == x / u * u) as Hxu by (field; apply Qnot_eq_sym, Qlt_not_eq, Hu).
  destruct (rne_near (x / u)) as [A B].
  rewrite Hh. split.
  - setoid_replace (x - (1 # 2) * u) with ((x / u - (1 # 2)) * u)
      using relation Qeq by (field; apply Qnot_eq_sym, Qlt_not_eq, Hu).
    apply Qmult_le_compat_r; [exact A|apply Qlt_le_weak, Hu].
  - setoid_replace (x + (1 # 2) * u) with ((x / u + (1 # 2)) * u)
      using relation Qeq by (field; apply Qnot_eq_sym, Qlt_not_eq, Hu).
    apply Qmult_le_compat_r; [exact B|apply Qlt_le_weak, Hu].
Qed.

(** On the unit interval the result is within [2^-25] of the argument. *)
Lemma round32_near_unit (x : Q) :
  0 <= x → x <= 1 →
  x - (1 # 33554432) <= round32 x ∧ round32 x <= x + (1 # 33554432).
Proof.
  intros H0 H1.
  destruct (Qlt_le_dec 0 x) as [Hx|Hx].
  2:{ rewrite (round32_zero x) by (apply Qle_antisym; assumption).
      assert (x == 0) as -> by (apply Qle_antisym; assumption).
      split; discriminate. }
  destruct (Qlt_le_dec x 1) as [Hlt|Hge].
  - rewrite round32_gt by exact Hx.
    destruct (round32_pos_near x Hx) as [A B].
    destruct (mag_spec x Hx) as [M1 _].
    assert (mag x < 0)%Z as Hm.
    { apply pow2_lt_inv. eapply Qle_lt_trans; [exact M1|exact Hlt]. }
    assert (pow2 (mag x - 24) <= 1 # 33554432) as Hp.
    { change (1 # 33554432) with (pow2 (-25)). apply pow2_le. lia. }
    split.
    + eapply Qle_trans; [|exact A].
      apply Qplus_le_r, Qopp_le_compat, Hp.
    + eapply Qle_trans; [exact B|]. apply Qplus_le_r, Hp.
  - assert (x == 1) as E by (apply Qle_antisym; assumption).
    rewrite (round32_eq x 1 H0 E), E. split; discriminate.
Qed.

(** The quotients [GetConfidence] computes. *)

Lemma Qdiv_unit (x y : Q) : 0 <= x → x <= y → 0 < y → 0 <= x / y ∧ x / y <= 1.
Proof.
  intros Hx Hxy Hy. split.
  - apply Qle_shift_div_l; [exact Hy|]. rewrite Qmult_0_l. exact Hx.
  - apply Qle_shift_div_r; [exact Hy|]. rewrite Qmult_1_l. exact Hxy.
Qed.

Lemma of_uint32_pos (z : Z) : (0 < z)%Z → 0 < of_uint32 z.
Proof.
  intros Hz. apply round32_pos_gt. rewrite <- (Zlt_Qlt 0). exact Hz.
Qed.

Lemma of_uint32_mono (a t : Z) :
  (0 <= a <= t)%Z → 0 <= of_uint32 a ∧ of_uint32 a <= of_uint32 t.
Proof.
  intros H. split.
  - apply round32_nonneg. rewrite <- (Zle_Qle 0). lia.
  - apply round32_mono; [rewrite <- (Zle_Qle 0)|rewrite <- Zle_Qle]; lia.
Qed.

(** The quotient of two counters lies between 0 and 1. *)
Lemma fdiv32_unit (a t : Z) :
  (0 <= a <= t)%Z → (0 < t)%Z →
  0 <= fdiv32 (of_uint32 a) (of_uint32 t)
  ∧ fdiv32 (of_uint32 a) (of_uint32 t) <= 1.
Proof.
  intros Ha Ht. destruct (of_uint32_mono a t Ha) as [H0 H1].
  pose proof (of_uint32_pos t Ht) as Hp.
  destruct (Qdiv_unit _ _ H0 H1 Hp) as [A B].
  unfold fdiv32. split.
  - apply round32_nonneg, A.
  - apply Qle_trans with (round32 1); [apply round32_mono; assumption|].
    rewrite round32_one. apply Qle_refl.
Qed.

Lemma fdiv32_pos (a t : Z) :
  (0 < a)%Z → (0 < t)%Z → 0 < fdiv32 (of_uint32 a) (of_uint32 t).
Proof.
  intros Ha Ht. unfold fdiv32. apply round32_pos_gt.
  apply Qlt_shift_div_l; [apply of_uint32_pos, Ht|].
  rewrite Qmult_0_l. apply of_uint32_pos, Ha.
Qed.

Lemma fdiv32_zero (t : Z) : fdiv32 (of_uint32 0) (of_uint32 t) == 0.
Proof.
  unfold fdiv32. change (of_uint32 0) with 0.
  rewrite round32_zero; [reflexivity|]. unfold Qdiv. apply Qmult_0_l.
Qed.

(** Up to [2^24] the counters are binary32 numbers themselves, and the
    quotient is the exact one, rounded once. *)
Lemma fdiv32_exact_counters (a t : Z) :
  (0 <= a <= t)%Z → (0 < t)%Z → (t <= 2 ^ 24)%Z →
  fdiv32 (of_uint32 a) (of_uint32 t) == round32 (inject_Z a / inject_Z t).
Proof.
  intros Ha Ht Hb. destruct (of_uint32_mono a t Ha) as [H0 H1].
  pose proof (of_uint32_pos t Ht) as Hp.
  unfold fdiv32. apply round32_eq.
  - apply (Qdiv_unit _ _ H0 H1 Hp).
  - unfold of_uint32. rewrite !round32_exact by lia. reflexivity.
Qed.

Lemma fdiv32_one (t : Z) :
  (0 < t)%Z → fdiv32 (of_uint32 t) (of_uint32 t) == 1.
Proof.
  intros Ht. pose proof (of_uint32_pos t Ht) as Hp.
  unfold fdiv32. rewrite <- round32_one.
  apply round32_eq.
  - apply Qle_shift_div_l; [exact Hp|]. rewrite Qmult_0_l.
    apply Qlt_le_weak, Hp.
  - unfold Qdiv. apply Qmult_inv_r. apply Qnot_eq_sym, Qlt_not_eq, Hp.
Qed.

(** With counters of at most 24 bits, a quotient of two different counters
    stays below 1. *)
Lemma fdiv32_below_one (a t : Z) :
  (0 <= a < t)%Z → (t <= 2 ^ 24)%Z →
  fdiv32 (of_uint32 a) (of_uint32 t) <= 16777215 # 16777216.
Proof.
  intros Ha Hb.
  rewrite fdiv32_exact_counters by lia.
  assert (round32 (16777215 # 16777216) = 16777215 # 16777216) as <-
    by reflexivity.
  assert (0 < inject_Z t) as Hp by (rewrite <- (Zlt_Qlt 0); lia).
  apply round32_mono.
  - apply Qle_shift_div_l; [exact Hp|]. rewrite Qmult_0_l.
    rewrite <- (Zle_Qle 0). lia.
  - apply Qle_shift_div_r; [exact Hp|].
    unfold Qle, Qmult, inject_Z. cbn [Qnum Qden]. lia.
Qed.

End Binary32.

(** The rounding above against the IEEE 754 operations of the standard
    library: conversion and division agree on all pairs of small counters,
    on counters around [2^24], where integers stop being exact, and on
    counters at the upper end of 32 bits. *)
Example binary32_operations_agree :
  forallb (fun t =>
    forallb (fun a => quotients_agree a (t + 1)) (range (Z.to_nat t + 2)))
    (range 60) = true
  ∧ forallb (fun t =>
      forallb (fun a =>
        quotients_agree (a * 7919 + 16777000) (t * 104729 + 16777213))
        (range 30)) (range 30) = true
  ∧ forallb (fun t =>
      forallb (fun a =>
        quotients_agree (a * 7919 + 4294000000) (t * 1047 + 4294960000))
        (range 30)) (range 30) = true
  ∧ SF_quotient 2 3 = Some (11184811 # 16777216)%Q
  ∧ fdiv32 (of_uint32 2) (of_uint32 3) = (11184811 # 16777216)%Q.
Proof. vm_compute. repeat split. Qed.

(** ** The confidence *)

(** C5.  Take the counters of any reachable state and any unsigned
    threshold.  [GetConfidence] returns [DONT_KNOW] exactly when
    [mTotalRel <= mDataThreshold].  Otherwise it returns
    [(mTotalRel - mRelSample[0]) / mTotalRel] as the code computes it, in
    single precision: the unsigned subtraction does not wrap, the result
    lies between 0 and 1, and as long as [mTotalRel] has at most 24 bits it
    is the binary32 number nearest to the exact fraction, at most [2^-25]
    away from it.  On a fresh analyser it returns [DONT_KNOW]. *)
Theorem GetConfidence_reachable (M : Z) (e : Encoding) (st0 st : State) :
  0 <= M < 2 ^ 32 - 1 →
  reachable M e st0 →
  mRelSample st = mRelSample st0 →
  mTotalRel st = mTotalRel st0 →
  0 <= mDataThreshold st →
  ((GetConfidence st == DONT_KNOW)%Q ↔ mTotalRel st <= mDataThreshold st)
  ∧ (mTotalRel st <= mDataThreshold st → GetConfidence st = DONT_KNOW)
  ∧ (mDataThreshold st < mTotalRel st →
     GetConfidence st
     = fdiv32 (of_uint32 (mTotalRel st - mRelSample st !!! 0%nat))
         (of_uint32 (mTotalRel st))
     ∧ 0 <= mRelSample st !!! 0%nat <= mTotalRel st
     ∧ (0 <= GetConfidence st <= 1)%Q
     ∧ (mTotalRel st <= 2 ^ 24 →
        let q :=
          (inject_Z (mTotalRel st - mRelSample st !!! 0%nat)
           / inject_Z (mTotalRel st))%Q in
        (GetConfidence st == round32 q)%Q
        ∧ (q - (1 # 33554432) <= GetConfidence st)%Q
        ∧ (GetConfidence st <= q + (1 # 33554432))%Q))
  ∧ GetConfidence initial = DONT_KNOW.
Proof.
  intros HM Hr HS HT Hd.
  destruct (reachable_Inv M e st0 HM Hr) as [Hty Hnn Htot Hbd _ _ _].
  unfold typed in Hty. rewrite <- HS in Hty, Hnn, Htot. rewrite <- HT in Htot, Hbd.
  assert (0 <= mRelSample st !!! 0%nat <= mTotalRel st) as H0.
  { pose proof (total_samples_ge (mRelSample st) 0 Hnn) as H.
    rewrite Hty in H.
    specialize (H ltac:(unfold NUM_OF_CATEGORY; lia)).
    destruct (mDone st0); lia. }
  assert (mTotalRel st < 2 ^ 32) as Hlt by (destruct (mDone st0); lia).
  unfold GetConfidence.
  destruct (Z.ltb_spec (mDataThreshold st) (mTotalRel st)) as [Hgt|Hle].
  - rewrite wrap32_small by lia.
    set (a := mTotalRel st - mRelSample st !!! 0%nat) in *.
    assert (0 <= a <= mTotalRel st) as Ha by (unfold a; lia).
    assert (0 < mTotalRel st) as Ht by lia.
    destruct (fdiv32_unit a (mTotalRel st) Ha Ht) as [U0 U1].
    split; [|split; [intros; lia|split; [|reflexivity]]].
    + split; [|lia]. intros Heq. exfalso. rewrite Heq in U0.
      revert U0. unfold DONT_KNOW, Qle, inject_Z. cbn. lia.
    + intros _. split; [reflexivity|]. split; [exact H0|].
      split; [split; assumption|]. intros H24. cbn zeta.
      pose proof (fdiv32_exact_counters a (mTotalRel st) Ha Ht H24) as Hq.
      split; [exact Hq|].
      assert (0 < inject_Z (mTotalRel st))%Q as Hp
        by (rewrite <- (Zlt_Qlt 0); lia).
      assert (0 <= inject_Z a / inject_Z (mTotalRel st)
              ∧ inject_Z a / inject_Z (mTotalRel st) <= 1)%Q as [Q0 Q1].
      { apply Qdiv_unit; [rewrite <- (Zle_Qle 0); lia
                         |rewrite <- Zle_Qle; lia|exact Hp]. }
      destruct (round32_near_unit _ Q0 Q1) as [N0 N1].
      rewrite Hq. split; assumption.
  - split; [split; [intros; lia|reflexivity]|].
    split; [reflexivity|]. split; [intros; lia|reflexivity].
Qed.

Lemma GetConfidence_reachable_witness :
  let st0 :=
    ingest 1000 SJIS initial
      (mkBuffer [x82; xa0; x82; xa0; x82; xa2; x82; x9f] x00) in
  let st := set_mDataThreshold 2 st0 in
  (0 <= 1000 < 2 ^ 32 - 1 ∧ reachable 1000 SJIS st0
   ∧ mRelSample st = mRelSample st0 ∧ mTotalRel st = mTotalRel st0
   ∧ 0 <= mDataThreshold st)
  ∧ mRelSample st = [1; 0; 0; 0; 2; 0]
  ∧ mTotalRel st = 3
  ∧ mDataThreshold st < mTotalRel st
  ∧ GetConfidence st = (11184811 # 16777216)%Q
  ∧ (0 <= GetConfidence st <= 1)%Q.
Proof.
  cbn zeta.
  assert (0 <= 1000 < 2 ^ 32 - 1) as HM by lia.
  assert (reachable 1000 SJIS
    (ingest 1000 SJIS initial
       (mkBuffer [x82; xa0; x82; xa0; x82; xa2; x82; x9f] x00))) as Hr.
  { apply reach_HandleData; [apply reach_initial|].
    unfold chunk_ok, aLen; cbn; lia. }
  assert (0 <= mDataThreshold (set_mDataThreshold 2
    (ingest 1000 SJIS initial
       (mkBuffer [x82; xa0; x82; xa0; x82; xa2; x82; x9f] x00)))) as Hd
    by (cbn; lia).
  split; [split; [exact HM|split; [exact Hr|]]|].
  { split; [reflexivity|]. split; [reflexivity|exact Hd]. }
  split; [reflexivity|]. split; [reflexivity|]. split; [reflexivity|].
  split; [reflexivity|].
  exact (proj1 (proj2 (proj2 (proj1 (proj2 (proj2
    (GetConfidence_reachable 1000 SJIS
       (ingest 1000 SJIS initial
          (mkBuffer [x82; xa0; x82; xa0; x82; xa2; x82; x9f] x00))
       (set_mDataThreshold 2
          (ingest 1000 SJIS initial
             (mkBuffer [x82; xa0; x82; xa0; x82; xa2; x82; x9f] x00)))
       HM Hr eq_refl eq_refl Hd))) eq_refl)))).
Defined.

(** ** The loop ends by its own test *)

Section Loop.

Variable M : Z.
Variable e : Encoding.

Lemma step_no_wrap (b : Buffer) (i : Z) :
  chunk_ok b → 0 <= i < aLen b →
  wrap32 (i + (decode e b i).2) = i + (decode e b i).2.
Proof.
  intros Hb Hi. pose proof (decode_charLen e b i).
  apply wrap32_small. unfold chunk_ok in Hb. lia.
Qed.

(** Fuel beyond the number of bytes left changes nothing: on a buffer
    within the 32-bit bound the loop has left through its test [i < aLen]
    or its [break] before the fuel is used up. *)
Lemma scan_fuel (b : Buffer) :
  chunk_ok b →
  ∀ (fuel : nat) (i : Z) (st : State) (more : nat),
    0 <= i → aLen b - i <= Z.of_nat fuel →
    scan M e (fuel + more) b i st = scan M e fuel b i st.
Proof.
  intros Hb. induction fuel as [|fuel IH]; intros i st more Hi Hf.
  - destruct more as [|more]; [reflexivity|].
    cbn [Nat.add scan]. destruct (Z.ltb_spec i (aLen b)); [lia|reflexivity].
  - cbn [Nat.add scan].
    destruct (Z.ltb_spec i (aLen b)) as [Hlt|Hge]; [|reflexivity].
    unfold mbind, Rd_bind. cbn zeta.
    fold (decode e b i).
    rewrite (step_no_wrap b i Hb) by lia.
    pose proof (decode_charLen e b i).
    rewrite !IH by lia. reflexivity.
Qed.

End Loop.

(** ** The bytes to skip *)

Section Skip.

Variable M : Z.
Variable e : Encoding.

(** A buffer no longer than the number of bytes to skip is not looked at,
    and the number of bytes to skip stays what it was. *)
Lemma short_chunk_unchanged (st : State) (b : Buffer) :
  aLen b <= mNeedToSkipCharNum st → HandleData M e st b = mret st.
Proof.
  intros H. unfold HandleData. destruct (mDone st); [reflexivity|].
  destruct (length (aBuf b)) as [|fuel]; [reflexivity|].
  cbn [scan]. destruct (Z.ltb_spec (mNeedToSkipCharNum st) (aLen b));
    [lia|reflexivity].
Qed.

(** The loop writes [mNeedToSkipCharNum] in its boundary case only, and
    writes a positive number there: a positive count never returns to 0. *)
Lemma scan_skip_positive (fuel : nat) (b : Buffer) :
  ∀ (i : Z) (st : State),
    0 < mNeedToSkipCharNum st →
    0 < mNeedToSkipCharNum (value (scan M e fuel b i st)).
Proof.
  induction fuel as [|fuel IH]; intros i st H; [exact H|].
  rewrite scan_S. destruct (i <? aLen b); [|exact H]. cbn zeta.
  destruct (Z.ltb_spec (aLen b) (wrap32 (i + (decode e b i).2))).
  { apply IH. st_simpl. lia. }
  destruct (negb (_ =? -1) && negb (_ =? -1)).
  - destruct (M <? _); [exact H|]. apply IH. exact H.
  - apply IH. exact H.
Qed.

Lemma ingest_skip_positive (st : State) (b : Buffer) :
  0 < mNeedToSkipCharNum st → 0 < mNeedToSkipCharNum (ingest M e st b).
Proof.
  intros H. unfold ingest, HandleData. destruct (mDone st); [exact H|].
  apply scan_skip_positive, H.
Qed.

End Skip.

(** C2 at a failing input.  The chunk [0x82] ends inside a two-byte
    character and leaves one byte to skip.  The next chunk,
    [0xA0 0x41 0x42], holds that byte and two complete one-byte characters,
    so the call ends on a character boundary; after this call, which
    consumes the skipped byte, the count is still 1, where C2 expects 0. *)
Theorem skip_count_never_cleared (M : Z) :
  let st1 := ingest M SJIS initial (mkBuffer [x82] xa0) in
  let st2 := ingest M SJIS st1 (mkBuffer [xa0; x41; x42] x00) in
  mNeedToSkipCharNum st1 = 1
  ∧ lands SJIS [xa0; x41; x42] (mNeedToSkipCharNum st1)
  ∧ mNeedToSkipCharNum st2 = 1
  ∧ mNeedToSkipCharNum st2 ≠ 0.
Proof.
  cbn zeta. split; [reflexivity|]. split; [|split; [reflexivity|]].
  - apply (lands_step SJIS _ 1 x41); [lia|reflexivity|].
    apply (lands_step SJIS _ 2 x42); [lia|reflexivity|].
    exact (lands_end SJIS [xa0; x41; x42]).
  - vm_compute. discriminate.
Qed.

(** C3 at a failing input.  The chunk [0x8F] ends after the first byte of
    a three-byte EUC-JP character and leaves two bytes to skip.  After the
    next chunk, of the single byte [0xA1], the count is still 2, where C3
    expects 2 - 1 = 1. *)
Theorem short_chunk_keeps_skip_count (M : Z) :
  let st1 := ingest M EUCJP initial (mkBuffer [x8f] xa1) in
  let b := mkBuffer [xa1] xa1 in
  let st2 := ingest M EUCJP st1 b in
  mNeedToSkipCharNum st1 = 2
  ∧ aLen b = 1
  ∧ st2 = st1
  ∧ mNeedToSkipCharNum st2 = 2
  ∧ mNeedToSkipCharNum st2 ≠ mNeedToSkipCharNum st1 - aLen b.
Proof. vm_compute. repeat split. discriminate. Qed.

(** ** Reaching the bound *)

Section Bound.

Variable M : Z.
Hypothesis M_ok : 0 <= M < 2 ^ 32 - 1.

Lemma ingest_hiragana_first : ingest M SJIS initial hiragana_1 = after_pairs 0.
Proof. reflexivity. Qed.

Lemma ingest_hiragana_next (n : Z) :
  0 <= n <= M →
  ingest M SJIS (after_pairs n) hiragana_1
  = if M <? n + 1
    then set_mDone true (set_mTotalRel (n + 1) (after_pairs n))
    else after_pairs (n + 1).
Proof.
  intros Hn. unfold ingest, HandleData, after_pairs.
  cbn [mDone mNeedToSkipCharNum].
  change (length (aBuf hiragana_1)) with 2%nat.
  rewrite scan_S.
  cbn [mNeedToSkipCharNum mLastCharOrder mTotalRel mRelSample].
  change (aLen hiragana_1) with 2.
  change (decode SJIS hiragana_1 0) with (1, 2).
  cbn [fst snd]. change (wrap32 (0 + 2)) with 2.
  change (0 <? 2) with true. change (2 <? 2) with false.
  change (negb (1 =? -1) && negb (1 =? -1)) with true. cbv iota.
  rewrite wrap32_small by lia.
  destruct (M <? n + 1); [reflexivity|].
  rewrite scan_S. change (aLen hiragana_1) with 2.
  change (2 <? 2) with false. cbv iota.
  unfold incr_sample. change (category 1 1) with 4.
  change (Z.to_nat 4) with 4%nat.
  change ([0; 0; 0; 0; n; 0] !!! 4%nat) with n.
  rewrite wrap32_small by lia. reflexivity.
Qed.

Lemma ingest_hiragana_many (k : nat) :
  ∀ n : Z, 0 <= n → n + Z.of_nat k <= M →
    ingest_all M SJIS (after_pairs n) (replicate k hiragana_1)
    = after_pairs (n + Z.of_nat k).
Proof.
  induction k as [|k IH]; intros n Hn Hk.
  - cbn. f_equal. lia.
  - cbn [replicate]. unfold ingest_all in *. cbn [foldl].
    rewrite ingest_hiragana_next by lia.
    destruct (Z.ltb_spec M (n + 1)); [lia|].
    rewrite IH by lia. f_equal. lia.
Qed.

(** Whatever the bound, two more hiragana than the bound make the count
    exceed the sum of the counters by one. *)
Lemma bound_reached :
  let st :=
    ingest_all M SJIS initial (replicate (Z.to_nat M + 2) hiragana_1) in
  mDone st = true
  ∧ mTotalRel st = M + 1
  ∧ total_samples (mRelSample st) = M.
Proof.
  cbn zeta.
  replace (Z.to_nat M + 2)%nat with (S (Z.to_nat M + 1)) by lia.
  cbn [replicate]. rewrite replicate_add.
  unfold ingest_all. cbn [foldl]. rewrite foldl_app.
  rewrite ingest_hiragana_first.
  fold (ingest_all M SJIS (after_pairs 0) (replicate (Z.to_nat M) hiragana_1)).
  rewrite ingest_hiragana_many by lia.
  cbn [replicate foldl]. rewrite ingest_hiragana_next by lia.
  destruct (Z.ltb_spec M (0 + Z.of_nat (Z.to_nat M) + 1)); [|lia].
  cbn. repeat split; lia.
Qed.

End Bound.

(** ** The loop without fuel *)

Section Run.

Variable M : Z.
Variable e : Encoding.

Lemma scan_past_end (fuel : nat) (b : Buffer) (i : Z) (st : State) :
  aLen b <= i → scan M e fuel b i st = mret st.
Proof.
  intros H. destruct fuel as [|fuel]; [reflexivity|].
  cbn [scan]. destruct (Z.ltb_spec i (aLen b)); [lia|reflexivity].
Qed.

Lemma run_end (b : Buffer) (i : Z) (st : State) :
  aLen b <= i → run M e b i st = mret st.
Proof. intros H. unfold run. apply scan_past_end, H. Qed.

Lemma scan_run (b : Buffer) (fuel : nat) (i : Z) (st : State) :
  chunk_ok b → 0 <= i → aLen b - i <= Z.of_nat fuel →
  scan M e fuel b i st = run M e b i st.
Proof.
  intros Hb Hi Hf. unfold run.
  replace fuel
    with (Z.to_nat (aLen b - i) + (fuel - Z.to_nat (aLen b - i)))%nat by lia.
  apply scan_fuel; [exact Hb|exact Hi|lia].
Qed.

Lemma HandleData_run (st : State) (b : Buffer) :
  chunk_ok b → 0 <= mNeedToSkipCharNum st →
  HandleData M e st b
  = if mDone st then mret st else run M e b (mNeedToSkipCharNum st) st.
Proof.
  intros Hb Hs. unfold HandleData. destruct (mDone st); [reflexivity|].
  apply scan_run; [exact Hb|exact Hs|]. unfold aLen. lia.
Qed.

(** The loop, one iteration at a time. *)
Lemma run_unfold (b : Buffer) (i : Z) (st : State) :
  chunk_ok b → 0 <= i →
  run M e b i st
  = if i <? aLen b then
      r ← GetOrder e (fun k => load b (i + k));
      let i' := i + r.2 in
      if aLen b <? i' then
        mret (set_mLastCharOrder (-1)
                (set_mNeedToSkipCharNum (i' - aLen b) st))
      else if negb (r.1 =? -1) && negb (mLastCharOrder st =? -1) then
        if M <? wrap32 (mTotalRel st + 1)
        then mret (set_mDone true
                     (set_mTotalRel (wrap32 (mTotalRel st + 1)) st))
        else
          run M e b i'
            (set_mLastCharOrder r.1
               (set_mRelSample
                  (incr_sample (category (mLastCharOrder st) r.1)
                     (mRelSample st))
                  (set_mTotalRel (wrap32 (mTotalRel st + 1)) st)))
      else run M e b i' (set_mLastCharOrder r.1 st)
    else mret st.
Proof.
  intros Hb Hi.
  destruct (Z.ltb_spec i (aLen b)) as [Hlt|Hge]; [|apply run_end; lia].
  unfold run at 1.
  destruct (Z.to_nat (aLen b - i)) as [|k] eqn:Ek; [lia|].
  cbn [scan]. destruct (Z.ltb_spec i (aLen b)); [|lia].
  unfold mbind, Rd_bind. cbn zeta. fold (decode e b i).
  rewrite (step_no_wrap e b i Hb) by lia.
  pose proof (decode_charLen e b i) as Hc.
  change (mTotalRel (set_mTotalRel (wrap32 (mTotalRel st + 1)) st))
    with (wrap32 (mTotalRel st + 1)).
  destruct (Z.ltb_spec (aLen b) (i + (decode e b i).2)).
  { rewrite scan_past_end by lia. reflexivity. }
  destruct (negb (_ =? -1) && negb (_ =? -1)).
  - destruct (M <? _); [reflexivity|].
    rewrite scan_run by (exact Hb || lia). reflexivity.
  - rewrite scan_run by (exact Hb || lia). reflexivity.
Qed.

End Run.

(** ** Buffers with a common prefix *)

Lemma load_in (b : Buffer) (k : Z) :
  0 <= k < aLen b →
  ∃ c : byte, aBuf b !! Z.to_nat k = Some c ∧ load b k = mkRd (uchar c) false.
Proof.
  intros Hk. unfold aLen in Hk.
  destruct (lookup_lt_is_Some_2 (aBuf b) (Z.to_nat k)) as [c Hc]; [lia|].
  exists c. split; [exact Hc|]. unfold load. rewrite Hc. reflexivity.
Qed.

Lemma load_out (b : Buffer) (k : Z) :
  aLen b <= k → load b k = mkRd (uchar (past b)) true.
Proof.
  intros Hk. unfold aLen in Hk. unfold load.
  rewrite (lookup_ge_None_2 (aBuf b) (Z.to_nat k)) by lia. reflexivity.
Qed.

Lemma load_agree (n : Z) (b b' : Buffer) (k : Z) :
  agree n b b' → 0 <= k < n → load b k = load b' k.
Proof.
  intros (Hb & Hb' & H) Hk.
  destruct (load_in b k) as (c & Hc & ->); [lia|].
  destruct (load_in b' k) as (c' & Hc' & ->); [lia|].
  rewrite H in Hc by lia. congruence.
Qed.

Lemma decode_lookup (e : Encoding) (b : Buffer) (i : Z) (c : byte) :
  0 <= i → aBuf b !! Z.to_nat i = Some c →
  (decode e b i).2 = charLen_of e (uchar c).
Proof.
  intros Hi Hc. unfold decode. rewrite GetOrder_charLen.
  rewrite Z.add_0_r. unfold load. rewrite Hc. reflexivity.
Qed.

(** At an offset within the common prefix the decoder reports the same
    length in both buffers; when the character ends within the prefix, it
    reads the same bytes and reports the same order. *)
Lemma decode_agree (e : Encoding) (n : Z) (b b' : Buffer) (i : Z) :
  agree n b b' → 0 <= i < n →
  (decode e b i).2 = (decode e b' i).2
  ∧ (i + (decode e b i).2 <= n →
     GetOrder e (fun k => load b (i + k))
     = GetOrder e (fun k => load b' (i + k))).
Proof.
  intros Hag Hi.
  assert (load b (i + 0) = load b' (i + 0)) as H0.
  { apply (load_agree n); [exact Hag|lia]. }
  split.
  - unfold decode. rewrite !GetOrder_charLen, H0. reflexivity.
  - intros Hfit. apply GetOrder_ext; [exact H0|].
    intros Hlead. apply (load_agree n); [exact Hag|].
    unfold decode in Hfit. rewrite GetOrder_charLen, Hlead in Hfit.
    rewrite charLen_of_lead in Hfit. lia.
Qed.

Lemma agree_app (l1 l2 : list byte) (p1 p : byte) :
  agree (Z.of_nat (length l1)) (mkBuffer l1 p1) (mkBuffer (l1 ++ l2) p).
Proof.
  unfold agree, aLen. cbn [aBuf]. rewrite length_app.
  repeat split; try lia.
  intros k Hk. rewrite lookup_app_l by lia. reflexivity.
Qed.

Lemma agree_past (l : list byte) (p p' : byte) :
  agree (Z.of_nat (length l)) (mkBuffer l p) (mkBuffer l p').
Proof. unfold agree, aLen. cbn [aBuf]. repeat split; lia. Qed.

Lemma lands_range (e : Encoding) (l : list byte) (i : Z) :
  lands e l i → 0 <= i <= Z.of_nat (length l).
Proof.
  induction 1 as [|i c Hi Hc _ IH]; [lia|].
  pose proof (charLen_of_range e (uchar c)). lia.
Qed.

(** ** Chunk boundaries on character boundaries *)

Section Chunks.

Variable M : Z.
Variable e : Encoding.

Lemma run_value (b : Buffer) (i : Z) (st : State) :
  chunk_ok b → 0 <= i →
  value (run M e b i st)
  = if i <? aLen b then
      let i' := i + (decode e b i).2 in
      if aLen b <? i' then
        set_mLastCharOrder (-1) (set_mNeedToSkipCharNum (i' - aLen b) st)
      else if negb ((decode e b i).1 =? -1) && negb (mLastCharOrder st =? -1)
      then
        if M <? wrap32 (mTotalRel st + 1)
        then set_mDone true (set_mTotalRel (wrap32 (mTotalRel st + 1)) st)
        else
          value (run M e b i'
            (set_mLastCharOrder (decode e b i).1
               (set_mRelSample
                  (incr_sample (category (mLastCharOrder st) (decode e b i).1)
                     (mRelSample st))
                  (set_mTotalRel (wrap32 (mTotalRel st + 1)) st))))
      else value (run M e b i' (set_mLastCharOrder (decode e b i).1 st))
    else st.
Proof.
  intros Hb Hi. rewrite run_unfold by assumption.
  destruct (i <? aLen b); [|reflexivity].
  rewrite value_bind. fold (decode e b i). cbn zeta.
  split_ifs; reflexivity.
Qed.

(** As long as the characters end exactly at the end of the buffer, the
    loop does not touch [mNeedToSkipCharNum]. *)
Lemma run_lands_skip (b : Buffer) (i : Z) :
  chunk_ok b → lands e (aBuf b) i →
  ∀ st : State,
    mNeedToSkipCharNum (value (run M e b i st)) = mNeedToSkipCharNum st.
Proof.
  intros Hb H. induction H as [|i c Hi Hc Hl IH]; intros st.
  - rewrite run_end by (unfold aLen; lia). reflexivity.
  - pose proof (lands_range _ _ _ Hl) as Hr.
    pose proof (decode_lookup e b i c Hi Hc) as Hcl.
    rewrite run_value by assumption. cbn zeta. rewrite Hcl.
    destruct (i <? aLen b); [|reflexivity].
    destruct (Z.ltb_spec (aLen b) (i + charLen_of e (uchar c)));
      [unfold aLen in *; lia|].
    destruct (negb (_ =? -1) && negb (_ =? -1)).
    + destruct (M <? _); [reflexivity|]. rewrite IH. reflexivity.
    + rewrite IH. reflexivity.
Qed.

(** Scanning a buffer whose first part ends on a character boundary is
    scanning that part and then, unless the analyser is done, the rest. *)
Lemma run_prefix (b1 w : Buffer) (i : Z) :
  agree (aLen b1) b1 w → chunk_ok w → lands e (aBuf b1) i →
  ∀ st : State,
    mDone st = false →
    value (run M e w i st)
    = if mDone (value (run M e b1 i st)) then value (run M e b1 i st)
      else value (run M e w (aLen b1) (value (run M e b1 i st))).
Proof.
  intros Hag Hw H.
  assert (chunk_ok b1) as Hb1.
  { destruct Hag as (_ & Hle & _). unfold chunk_ok in *. lia. }
  induction H as [|i c Hi Hc Hl IH]; intros st Hd.
  - fold (aLen b1). rewrite (run_end M e b1) by lia.
    cbn [mret Rd_ret value]. rewrite Hd. reflexivity.
  - pose proof (lands_range _ _ _ Hl) as Hr. fold (aLen b1) in Hr.
    pose proof (decode_lookup e b1 i c Hi Hc) as Hcl.
    pose proof (charLen_of_range e (uchar c)) as Hc3.
    destruct (decode_agree e (aLen b1) b1 w i Hag ltac:(lia)) as [Hlen Hsame].
    assert (decode e w i = decode e b1 i) as Hdec.
    { unfold decode. rewrite Hsame by lia. reflexivity. }
    destruct Hag as (_ & Hle & _).
    rewrite (run_value w), (run_value b1) by assumption.
    cbn zeta. rewrite Hdec, Hcl.
    destruct (Z.ltb_spec i (aLen w)); [|lia].
    destruct (Z.ltb_spec i (aLen b1)); [|lia].
    destruct (Z.ltb_spec (aLen w) (i + charLen_of e (uchar c))); [lia|].
    destruct (Z.ltb_spec (aLen b1) (i + charLen_of e (uchar c))); [lia|].
    destruct (negb (_ =? -1) && negb (_ =? -1)).
    + destruct (M <? _); [reflexivity|]. apply IH. exact Hd.
    + apply IH. exact Hd.
Qed.

End Chunks.

Section Rechunk.

Variable M : Z.
Variable e : Encoding.

Lemma load_shift (l1 l2 : list byte) (p : byte) (k : Z) :
  0 <= k →
  load (mkBuffer (l1 ++ l2) p) (Z.of_nat (length l1) + k)
  = load (mkBuffer l2 p) k.
Proof.
  intros Hk. unfold load. cbn [aBuf past].
  rewrite lookup_app_r by lia.
  replace (Z.to_nat (Z.of_nat (length l1) + k) - length l1)%nat
    with (Z.to_nat k) by lia.
  reflexivity.
Qed.

Lemma aLen_app (l1 l2 : list byte) (p p' : byte) :
  aLen (mkBuffer (l1 ++ l2) p)
  = Z.of_nat (length l1) + aLen (mkBuffer l2 p').
Proof. unfold aLen. cbn [aBuf]. rewrite length_app. lia. Qed.

(** The second part of a buffer is scanned as if it were a buffer of its
    own. *)
Lemma scan_shift (l1 l2 : list byte) (p : byte) :
  chunk_ok (mkBuffer (l1 ++ l2) p) →
  ∀ (fuel : nat) (j : Z) (st : State),
    0 <= j →
    scan M e fuel (mkBuffer (l1 ++ l2) p) (Z.of_nat (length l1) + j) st
    = scan M e fuel (mkBuffer l2 p) j st.
Proof.
  intros Hw.
  assert (chunk_ok (mkBuffer l2 p)) as H2.
  { unfold chunk_ok in *. rewrite (aLen_app l1 l2 p p) in Hw. lia. }
  induction fuel as [|fuel IH]; intros j st Hj; [reflexivity|].
  cbn [scan]. rewrite (aLen_app l1 l2 p p).
  destruct (Z.ltb_spec j (aLen (mkBuffer l2 p))) as [Hlt|Hge];
    destruct (Z.ltb_spec (Z.of_nat (length l1) + j)
                (Z.of_nat (length l1) + aLen (mkBuffer l2 p)));
    try lia; [|reflexivity].
  assert (GetOrder e
            (fun k => load (mkBuffer (l1 ++ l2) p)
                        (Z.of_nat (length l1) + j + k))
          = GetOrder e (fun k => load (mkBuffer l2 p) (j + k))) as Hg.
  { apply GetOrder_ext; [|intros _];
      rewrite <- Z.add_assoc; apply load_shift; lia. }
  rewrite Hg. unfold mbind, Rd_bind. cbn zeta.
  fold (decode e (mkBuffer l2 p) j).
  pose proof (decode_charLen e (mkBuffer l2 p) j) as Hc.
  rewrite (step_no_wrap e (mkBuffer l2 p) j H2) by lia.
  rewrite (wrap32_small (Z.of_nat (length l1) + j + _))
    by (unfold chunk_ok in Hw; rewrite (aLen_app l1 l2 p p) in Hw; lia).
  rewrite <- !Z.add_assoc.
  replace (Z.of_nat (length l1) + (j + (decode e (mkBuffer l2 p) j).2)
           - (Z.of_nat (length l1) + aLen (mkBuffer l2 p)))
    with (j + (decode e (mkBuffer l2 p) j).2 - aLen (mkBuffer l2 p)) by lia.
  rewrite !IH by lia.
  destruct (Z.ltb_spec (aLen (mkBuffer l2 p))
              (j + (decode e (mkBuffer l2 p) j).2));
    destruct (Z.ltb_spec (Z.of_nat (length l1) + aLen (mkBuffer l2 p))
                (Z.of_nat (length l1) + (j + (decode e (mkBuffer l2 p) j).2)));
    try lia; reflexivity.
Qed.

Lemma run_shift (l1 l2 : list byte) (p : byte) (j : Z) (st : State) :
  chunk_ok (mkBuffer (l1 ++ l2) p) → 0 <= j →
  run M e (mkBuffer (l1 ++ l2) p) (Z.of_nat (length l1) + j) st
  = run M e (mkBuffer l2 p) j st.
Proof.
  intros Hw Hj. unfold run. rewrite (aLen_app l1 l2 p p).
  replace (Z.of_nat (length l1) + aLen (mkBuffer l2 p)
           - (Z.of_nat (length l1) + j))
    with (aLen (mkBuffer l2 p) - j) by lia.
  apply scan_shift; assumption.
Qed.

(** The byte behind the buffer has no influence on the state. *)
Lemma scan_past (l : list byte) (p p' : byte) :
  chunk_ok (mkBuffer l p) →
  ∀ (fuel : nat) (i : Z) (st : State),
    0 <= i →
    value (scan M e fuel (mkBuffer l p) i st)
    = value (scan M e fuel (mkBuffer l p') i st).
Proof.
  intros Hb.
  induction fuel as [|fuel IH]; intros i st Hi; [reflexivity|].
  rewrite !scan_S. change (aLen (mkBuffer l p')) with (aLen (mkBuffer l p)).
  destruct (Z.ltb_spec i (aLen (mkBuffer l p))) as [Hlt|Hge]; [|reflexivity].
  cbn zeta.
  destruct (decode_agree e (aLen (mkBuffer l p)) (mkBuffer l p)
              (mkBuffer l p') i (agree_past l p p') ltac:(lia))
    as [Hlen Hsame].
  pose proof (decode_charLen e (mkBuffer l p) i) as Hc.
  rewrite <- Hlen. rewrite (step_no_wrap e _ i Hb) by lia.
  destruct (Z.ltb_spec (aLen (mkBuffer l p))
              (i + (decode e (mkBuffer l p) i).2)) as [Hover|Hfit].
  { apply IH. lia. }
  assert (decode e (mkBuffer l p') i = decode e (mkBuffer l p) i) as Hdec.
  { unfold decode. rewrite Hsame by lia. reflexivity. }
  rewrite Hdec.
  destruct (negb (_ =? -1) && negb (_ =? -1)).
  - destruct (M <? _); [reflexivity|]. apply IH. lia.
  - apply IH. lia.
Qed.

Lemma run_past (l : list byte) (p p' : byte) (i : Z) (st : State) :
  chunk_ok (mkBuffer l p) → 0 <= i →
  value (run M e (mkBuffer l p) i st) = value (run M e (mkBuffer l p') i st).
Proof. intros Hb Hi. unfold run. apply scan_past; assumption. Qed.

Lemma ingest_past (st : State) (l : list byte) (p p' : byte) :
  chunk_ok (mkBuffer l p) → 0 <= mNeedToSkipCharNum st →
  ingest M e st (mkBuffer l p) = ingest M e st (mkBuffer l p').
Proof.
  intros Hb Hs. unfold ingest, HandleData.
  destruct (mDone st); [reflexivity|]. apply scan_past; assumption.
Qed.

End Rechunk.

Section Aligned.

Variable M : Z.
Variable e : Encoding.

(** Two calls on two chunks, the first of which ends on a character
    boundary, leave the state that one call on both chunks together
    leaves. *)
Lemma ingest_app (st : State) (l1 l2 : list byte) (p1 p2 p : byte) :
  chunk_ok (mkBuffer (l1 ++ l2) p) →
  mNeedToSkipCharNum st = 0 →
  lands e l1 0 →
  ingest M e (ingest M e st (mkBuffer l1 p1)) (mkBuffer l2 p2)
  = ingest M e st (mkBuffer (l1 ++ l2) p).
Proof.
  intros Hw Hs Hl.
  assert (chunk_ok (mkBuffer l1 p1)) as H1.
  { unfold chunk_ok in *. rewrite (aLen_app l1 l2 p p) in Hw.
    unfold aLen in *. cbn [aBuf] in *. lia. }
  assert (chunk_ok (mkBuffer l2 p)) as H2.
  { unfold chunk_ok in *. rewrite (aLen_app l1 l2 p p) in Hw. lia. }
  assert (chunk_ok (mkBuffer l2 p2)) as H2' by exact H2.
  unfold ingest at 2 3. rewrite !HandleData_run by (assumption || lia).
  destruct (mDone st) eqn:Hd.
  { cbn [mret Rd_ret value]. unfold ingest.
    rewrite HandleData_run by (assumption || lia).
    rewrite Hd. reflexivity. }
  rewrite Hs.
  set (st1 := value (run M e (mkBuffer l1 p1) 0 st)).
  assert (mNeedToSkipCharNum st1 = 0) as Hs1.
  { unfold st1. rewrite run_lands_skip; assumption. }
  unfold ingest. rewrite HandleData_run by (assumption || lia).
  rewrite (run_prefix M e (mkBuffer l1 p1) (mkBuffer (l1 ++ l2) p) 0
             (agree_app l1 l2 p1 p) Hw Hl st Hd).
  fold st1. destruct (mDone st1); [reflexivity|].
  rewrite Hs1.
  replace (aLen (mkBuffer l1 p1)) with (Z.of_nat (length l1) + 0)
    by (unfold aLen; cbn [aBuf]; lia).
  rewrite run_shift by (assumption || lia).
  apply run_past; [exact H2'|lia].
Qed.

Lemma ingest_lands_skip (st : State) (l : list byte) (p : byte) :
  chunk_ok (mkBuffer l p) →
  0 <= mNeedToSkipCharNum st →
  lands e l (mNeedToSkipCharNum st) →
  mNeedToSkipCharNum (ingest M e st (mkBuffer l p)) = mNeedToSkipCharNum st.
Proof.
  intros Hb Hs Hl. unfold ingest. rewrite HandleData_run by assumption.
  destruct (mDone st); [reflexivity|]. apply run_lands_skip; assumption.
Qed.

(** A chunking all of whose chunks end on character boundaries leaves the
    state that the whole stream in one call leaves. *)
Lemma ingest_all_aligned (chunks : list (list byte * byte)) (p : byte) :
  chunk_ok (mkBuffer (stream chunks) p) →
  Forall (fun c => lands e c.1 0) chunks →
  ∀ st : State,
    mNeedToSkipCharNum st = 0 →
    ingest_all M e st (buffers chunks)
    = ingest M e st (mkBuffer (stream chunks) p).
Proof.
  intros Hw Hl. induction Hl as [|c cs Hc Hcs IH]; intros st Hs.
  - cbn. unfold ingest, HandleData. cbn.
    destruct (mDone st); reflexivity.
  - unfold stream, buffers in *. cbn [map concat] in *.
    unfold ingest_all in *. cbn [foldl].
    assert (chunk_ok (mkBuffer (concat (map fst cs)) p)) as Hw'.
    { unfold chunk_ok, aLen in *. cbn [aBuf] in *.
      rewrite length_app in Hw. lia. }
    assert (chunk_ok (mkBuffer c.1 c.2)) as Hc1.
    { unfold chunk_ok, aLen in *. cbn [aBuf] in *.
      rewrite length_app in Hw. lia. }
    rewrite IH.
    + apply ingest_app; assumption.
    + exact Hw'.
    + rewrite ingest_lands_skip; rewrite ?Hs; (assumption || lia).
Qed.

End Aligned.

(** ** A bound that is not reached plays no role *)

Section BoundNotReached.

Variable e : Encoding.
Variables M M' : Z.
Hypothesis M_le : M <= M'.

Lemma scan_bound (fuel : nat) (b : Buffer) :
  ∀ (i : Z) (st : State),
    mDone st = false →
    mDone (value (scan M e fuel b i st)) = false →
    value (scan M' e fuel b i st) = value (scan M e fuel b i st).
Proof.
  induction fuel as [|fuel IH]; intros i st Hd; [reflexivity|].
  rewrite !scan_S. destruct (i <? aLen b); [|reflexivity]. cbn zeta.
  destruct (aLen b <? _); [apply IH; exact Hd|].
  destruct (negb (_ =? -1) && negb (_ =? -1)); [|apply IH; exact Hd].
  destruct (Z.ltb_spec M (wrap32 (mTotalRel st + 1))).
  - cbn. discriminate.
  - destruct (Z.ltb_spec M' (wrap32 (mTotalRel st + 1))); [lia|].
    apply IH. exact Hd.
Qed.

Lemma ingest_bound (st : State) (b : Buffer) :
  mDone (ingest M e st b) = false →
  ingest M' e st b = ingest M e st b.
Proof.
  unfold ingest, HandleData. destruct (mDone st) eqn:Hd; [reflexivity|].
  apply scan_bound. exact Hd.
Qed.

Lemma ingest_all_bound (bs : list Buffer) :
  ∀ st : State,
    mDone (ingest_all M e st bs) = false →
    ingest_all M' e st bs = ingest_all M e st bs.
Proof.
  induction bs as [|b bs IH]; intros st H; [reflexivity|].
  unfold ingest_all in *. cbn [foldl] in *.
  destruct (mDone (ingest M e st b)) eqn:Hd.
  - fold (ingest_all M e (ingest M e st b) bs) in H.
    rewrite ingest_all_done in H by exact Hd. congruence.
  - rewrite ingest_bound by exact Hd. apply IH. exact H.
Qed.

End BoundNotReached.

(** ** Re-chunking after a split character *)

(** C4 at failing inputs, for every bound of at least 2.

    Shift-JIS: the stream of four hiragana [0x82 0xA0] is cut after its
    first byte in both chunkings; the second chunking has one more cut, on
    the boundary between the second and the third character.  The first
    gives confidence 1, the second [DONT_KNOW]: the one byte to skip is
    skipped again at the start of the third chunk.

    EUC-JP: the three-byte character [0x8F 0xA1 0xA1] followed by three
    hiragana [0xA4 0xA2]; both chunkings cut after the three-byte character,
    the first cuts it after its first byte too, the second after its second
    byte.  The first gives confidence 1, the second [DONT_KNOW]. *)
Theorem rechunking_changes_confidence (M : Z) :
  2 <= M →
  let a := [([x82], xa0); ([xa0; x82; xa0; x82; xa0; x82; xa0], x00)] in
  let b := [([x82], xa0); ([xa0; x82; xa0], x82);
            ([x82; xa0; x82; xa0], x00)] in
  let c := [([x8f], xa1); ([xa1; xa1], xa4);
            ([xa4; xa2; xa4; xa2; xa4; xa2], x00)] in
  let d := [([x8f; xa1], xa1); ([xa1], xa4);
            ([xa4; xa2; xa4; xa2; xa4; xa2], x00)] in
  (stream a = stream b
   ∧ lands SJIS [xa0; x82; xa0] 1
   ∧ (GetConfidence (ingest_all M SJIS initial (buffers a)) == 1)%Q
   ∧ GetConfidence (ingest_all M SJIS initial (buffers b)) = DONT_KNOW)
  ∧ (stream c = stream d
     ∧ lands EUCJP [xa1; xa1] 2
     ∧ lands EUCJP [xa1] 1
     ∧ (GetConfidence (ingest_all M EUCJP initial (buffers c)) == 1)%Q
     ∧ GetConfidence (ingest_all M EUCJP initial (buffers d)) = DONT_KNOW).
Proof.
  intros HM. cbn zeta.
  rewrite !(ingest_all_bound _ 2 M HM) by reflexivity.
  repeat split.
  - apply (lands_step SJIS _ 1 x82); [lia|reflexivity|].
    exact (lands_end SJIS [xa0; x82; xa0]).
  - exact (lands_end EUCJP [xa1; xa1]).
  - exact (lands_end EUCJP [xa1]).
Qed.

Lemma rechunking_changes_confidence_witness :
  2 <= 1000
  ∧ (GetConfidence
       (ingest_all 1000 SJIS initial
          (buffers
             [([x82], xa0); ([xa0; x82; xa0; x82; xa0; x82; xa0], x00)]))
     == 1)%Q
  ∧ GetConfidence
      (ingest_all 1000 SJIS initial
         (buffers
            [([x82], xa0); ([xa0; x82; xa0], x82);
             ([x82; xa0; x82; xa0], x00)]))
    = DONT_KNOW.
Proof.
  assert (2 <= 1000) as HM by lia.
  split; [exact HM|].
  split; apply (rechunking_changes_confidence 1000 HM).
Defined.

(** ** A hiragana lead byte at the end of a buffer *)

Section LeadAtEnd.

Variable M : Z.
Variable e : Encoding.

Lemma agree_snoc (b1 w : Buffer) (c : byte) :
  aBuf w = aBuf b1 ++ [c] → aLen w = aLen b1 + 1 ∧ agree (aLen b1) b1 w.
Proof.
  intros Hw. unfold agree, aLen. rewrite Hw, length_app. cbn [length].
  repeat split; try lia.
  intros k Hk. rewrite lookup_app_l by lia. reflexivity.
Qed.

Lemma lead_at_end_decode (b1 w : Buffer) (c : byte) :
  aBuf w = aBuf b1 ++ [c] →
  uchar c = hiragana_lead e →
  overread (GetOrder e (fun k => load w (aLen b1 + k))) = true
  ∧ (decode e w (aLen b1)).2 = 2.
Proof.
  intros Hw Hc.
  destruct (agree_snoc b1 w c Hw) as [Hlen _].
  assert (aBuf w !! Z.to_nat (aLen b1) = Some c) as Hlk.
  { unfold aLen. rewrite Hw, Nat2Z.id.
    rewrite lookup_app_r by lia. rewrite Nat.sub_diag. reflexivity. }
  split.
  - rewrite GetOrder_overread; rewrite Z.add_0_r; unfold load at 1;
      rewrite Hlk; [|reflexivity].
    cbn [value]. rewrite Hc, Z.eqb_refl.
    rewrite load_out; [reflexivity|lia].
  - rewrite (decode_lookup e w _ c); [|unfold aLen; lia|exact Hlk].
    rewrite Hc. apply charLen_of_lead.
Qed.

(** When the characters before the last byte end exactly in front of it
    and the analyser is not done by then, the decoder is called on the last
    byte, and after a hiragana lead byte it reads the byte behind the
    buffer. *)
Lemma run_lead_at_end (b1 w : Buffer) (c : byte) (i : Z) :
  aBuf w = aBuf b1 ++ [c] →
  chunk_ok w →
  uchar c = hiragana_lead e →
  lands e (aBuf b1) i →
  ∀ st : State,
    mDone st = false →
    mDone (value (run M e b1 i st)) = false →
    overread (run M e w i st) = true.
Proof.
  intros Hwb Hw Hc H.
  destruct (agree_snoc b1 w c Hwb) as [Hlen Hag].
  assert (chunk_ok b1) as Hb1 by (unfold chunk_ok in *; lia).
  induction H as [|i ci Hi Hci Hl IH]; intros st Hd Hnd.
  - fold (aLen b1). rewrite run_unfold by (exact Hw || (unfold aLen; lia)).
    destruct (Z.ltb_spec (aLen b1) (aLen w)); [|lia].
    rewrite overread_bind.
    destruct (lead_at_end_decode b1 w c Hwb Hc) as [Hov _].
    rewrite Hov. reflexivity.
  - pose proof (lands_range _ _ _ Hl) as Hr. fold (aLen b1) in Hr.
    pose proof (decode_lookup e b1 i ci Hi Hci) as Hcl.
    pose proof (charLen_of_range e (uchar ci)) as Hc3.
    destruct (decode_agree e (aLen b1) b1 w i Hag ltac:(lia)) as [_ Hsame].
    specialize (Hsame ltac:(lia)).
    rewrite (run_value M e b1) in Hnd by assumption. cbn zeta in Hnd.
    rewrite run_unfold by assumption. rewrite <- Hsame.
    destruct (Z.ltb_spec i (aLen w)); [|lia].
    destruct (Z.ltb_spec i (aLen b1)); [|lia].
    rewrite overread_bind. fold (decode e b1 i) in *. cbn zeta.
    rewrite Hcl in *.
    destruct (Z.ltb_spec (aLen w) (i + charLen_of e (uchar ci))); [lia|].
    destruct (Z.ltb_spec (aLen b1) (i + charLen_of e (uchar ci))); [lia|].
    destruct (negb (_ =? -1) && negb (_ =? -1)).
    + destruct (M <? _); [discriminate Hnd|].
      rewrite IH by assumption. apply orb_true_r.
    + rewrite IH by assumption. apply orb_true_r.
Qed.

Lemma run_lead_at_end_value (b1 w : Buffer) (c : byte) (i : Z) (st : State) :
  aBuf w = aBuf b1 ++ [c] →
  chunk_ok w →
  uchar c = hiragana_lead e →
  lands e (aBuf b1) i →
  mDone st = false →
  mDone (value (run M e b1 i st)) = false →
  value (run M e w i st)
  = set_mLastCharOrder (-1)
      (set_mNeedToSkipCharNum 1 (value (run M e b1 i st))).
Proof.
  intros Hwb Hw Hc H Hd Hnd.
  destruct (agree_snoc b1 w c Hwb) as [Hlen Hag].
  destruct (lead_at_end_decode b1 w c Hwb Hc) as [_ Hcl].
  rewrite (run_prefix M e b1 w i Hag Hw H st Hd), Hnd.
  rewrite run_value by (exact Hw || (unfold aLen; lia)). cbn zeta.
  rewrite Hcl.
  destruct (Z.ltb_spec (aLen b1) (aLen w)); [|lia].
  destruct (Z.ltb_spec (aLen w) (aLen b1 + 2)); [|lia].
  replace (aLen b1 + 2 - aLen w) with 1 by lia. reflexivity.
Qed.

End LeadAtEnd.

(** C10, as the code has it.  Take a chunk whose last byte is the
    hiragana lead byte of the analyser, 0x82 for Shift-JIS and 0xA4 for
    EUC-JP, and at whose last byte the scan arrives: the characters decoded
    from the first offset scanned end exactly in front of it, and the
    analyser is not done by then.  The call of [HandleData] invokes the
    decoder on that byte and the decoder reads the byte one past the end of
    the chunk; the boundary test comes afterwards and records one byte to
    skip and no preceding order. *)
Theorem lead_byte_at_end_overreads (M : Z) (e : Encoding) (st : State)
    (pre : list byte) (c p p1 : byte) :
  chunk_ok (mkBuffer (pre ++ [c]) p) →
  uchar c = hiragana_lead e →
  lands e pre (mNeedToSkipCharNum st) →
  mDone (ingest M e st (mkBuffer pre p1)) = false →
  overread (HandleData M e st (mkBuffer (pre ++ [c]) p)) = true
  ∧ mNeedToSkipCharNum (ingest M e st (mkBuffer (pre ++ [c]) p)) = 1
  ∧ mLastCharOrder (ingest M e st (mkBuffer (pre ++ [c]) p)) = -1.
Proof.
  intros Hw Hc Hl Hnd.
  pose proof (lands_range _ _ _ Hl) as Hs.
  destruct (agree_snoc (mkBuffer pre p1) (mkBuffer (pre ++ [c]) p) c eq_refl)
    as [Hlen _].
  assert (chunk_ok (mkBuffer pre p1)) as Hb1 by (unfold chunk_ok in *; lia).
  assert (mDone st = false) as Hd.
  { destruct (mDone st) eqn:Hd; [|reflexivity].
    unfold ingest in Hnd. rewrite ingest_done in Hnd by exact Hd.
    cbn in Hnd. congruence. }
  unfold ingest in *.
  rewrite HandleData_run in Hnd by (assumption || lia).
  rewrite HandleData_run by (assumption || lia).
  rewrite Hd in *.
  split.
  - apply (run_lead_at_end M e (mkBuffer pre p1) _ c); auto.
  - rewrite (run_lead_at_end_value M e (mkBuffer pre p1) _ c); auto.
Qed.

Lemma lead_byte_at_end_overreads_witness :
  let pre := [x41; x82; xa0] in
  (chunk_ok (mkBuffer (pre ++ [x82]) x00)
   ∧ uchar x82 = hiragana_lead SJIS
   ∧ lands SJIS pre (mNeedToSkipCharNum initial)
   ∧ mDone (ingest 1000 SJIS initial (mkBuffer pre x00)) = false)
  ∧ overread (HandleData 1000 SJIS initial (mkBuffer (pre ++ [x82]) x00))
    = true.
Proof.
  cbn zeta.
  assert (chunk_ok (mkBuffer ([x41; x82; xa0] ++ [x82]) x00)) as H1
    by (unfold chunk_ok, aLen; cbn; lia).
  assert (uchar x82 = hiragana_lead SJIS) as H2 by reflexivity.
  assert (lands SJIS [x41; x82; xa0] (mNeedToSkipCharNum initial)) as H3.
  { apply (lands_step SJIS _ 0 x41); [lia|reflexivity|].
    apply (lands_step SJIS _ 1 x82); [lia|reflexivity|].
    exact (lands_end SJIS [x41; x82; xa0]). }
  assert (mDone (ingest 1000 SJIS initial (mkBuffer [x41; x82; xa0] x00))
          = false) as H4 by reflexivity.
  split; [repeat split; assumption|].
  apply (lead_byte_at_end_overreads 1000 SJIS initial [x41; x82; xa0]
           x82 x00 x00 H1 H2 H3 H4).
Defined.

(** C10 as stated fails: a chunk may end with the lead byte without the
    decoder being called on its last byte.  In [0x81 0x82] (Shift-JIS) and
    [0xA4 0xA4] (EUC-JP) the last byte is the second byte of a two-byte
    character; the scan steps over it and nothing is read behind the
    chunk. *)
Lemma trail_byte_not_decoded :
  overread (HandleData 1000 SJIS initial (mkBuffer [x81; x82] x00)) = false
  ∧ overread (HandleData 1000 EUCJP initial (mkBuffer [xa4; xa4] x00)) = false.
Proof. split; reflexivity. Qed.


(** ** Scenarios *)

(** The hiragana of order 1 followed by the one of order 3: one pair, of
    category [jp2CharContext[1][3] = 4], and a confidence of 1. *)
Example scenario_orders_1_3 :
  let st := ingest 1000 SJIS initial (mkBuffer [x82; xa0; x82; xa2] x00) in
  mTotalRel st = 1
  ∧ category 1 3 = 4
  ∧ mRelSample st = [0; 0; 0; 0; 1; 0]
  ∧ (GetConfidence st == 1)%Q.
Proof. vm_compute. repeat split. Qed.

(** A hiragana followed by a two-byte character that is no hiragana: no
    pair, and no confidence. *)
Example scenario_hiragana_other :
  let st := ingest 1000 SJIS initial (mkBuffer [x82; xa0; x88; x9f] x00) in
  mTotalRel st = 0 ∧ GetConfidence st = DONT_KNOW.
Proof. vm_compute. repeat split. Qed.

(** A chunk that ends after the lead byte of a two-byte character: the
    character is paired with neither neighbour. *)
Example scenario_split_character :
  let st1 := ingest 1000 SJIS initial (mkBuffer [x82; xa0; x82] xa2) in
  let st2 := ingest 1000 SJIS st1 (mkBuffer [xa2; x82; xa0] x00) in
  mLastCharOrder st1 = -1
  ∧ mNeedToSkipCharNum st1 = 1
  ∧ mTotalRel st2 = 0
  ∧ mLastCharOrder st2 = 1.
Proof. vm_compute. repeat split. Qed.

(** * Further properties of the code *)

(** ** The decoders at any pointer *)

(** X1.  Wherever it is called, a decoder that reports a hiragana order
    has seen the hiragana lead byte first, reports a length of two bytes,
    and reports the second byte minus 0x9F (Shift-JIS) or 0xA1 (EUC-JP), a
    number from 0 to 82. *)
Theorem GetOrder_hiragana_is_two_bytes (e : Encoding) (str : Z → Rd Z) :
  (value (GetOrder e str)).1 ≠ -1 →
  value (str 0) = hiragana_lead e
  ∧ (value (GetOrder e str)).2 = 2
  ∧ (value (GetOrder e str)).1
    = value (str 1) - (match e with SJIS => 0x9f | EUCJP => 0xa1 end)
  ∧ 0 <= (value (GetOrder e str)).1 <= 82.
Proof.
  decoder_cases e; cbn [value fst snd];
    decide_bounds; cbn [value fst snd]; intros Hne;
    try (exfalso; apply Hne; reflexivity); repeat split; lia.
Qed.

Lemma GetOrder_hiragana_is_two_bytes_witness :
  let str := load (mkBuffer [xa4; xf3] x00) in
  (value (GetOrder EUCJP str)).1 ≠ -1
  ∧ (value (GetOrder EUCJP str)).2 = 2
  ∧ (value (GetOrder EUCJP str)).1 = 82.
Proof.
  cbn zeta.
  assert ((value (GetOrder EUCJP (load (mkBuffer [xa4; xf3] x00)))).1 ≠ -1)
    as H by (vm_compute; discriminate).
  split; [exact H|]. split.
  - apply (GetOrder_hiragana_is_two_bytes EUCJP _ H).
  - reflexivity.
Defined.

Lemma decode_overread (e : Encoding) (b : Buffer) (i : Z) :
  0 <= i < aLen b →
  overread (GetOrder e (fun k => load b (i + k))) = true
  ↔ value (load b i) = hiragana_lead e ∧ i + 1 = aLen b.
Proof.
  intros Hi.
  destruct (load_in b i Hi) as (c & Hc & Hl).
  rewrite GetOrder_overread by (rewrite Z.add_0_r, Hl; reflexivity).
  rewrite Z.add_0_r, Hl. cbn [value].
  destruct (Z.eqb_spec (uchar c) (hiragana_lead e)) as [E|E].
  - destruct (Z.lt_ge_cases (i + 1) (aLen b)) as [Hin|Hout].
    + destruct (load_in b (i + 1)) as (c1 & _ & ->); [lia|].
      cbn [overread]. split; [discriminate|lia].
    + rewrite load_out by lia. cbn [overread]. split; [|reflexivity].
      intros _. split; [exact E|lia].
  - split; [discriminate|]. intros [E' _]. contradiction.
Qed.


(** X2.  Called on a byte of the buffer, a decoder reads behind the buffer
    exactly when that byte is the last one and is the hiragana lead byte;
    it never looks further than one byte ahead. *)
Theorem GetOrder_overreads_iff (e : Encoding) (b : Buffer) (i : Z) :
  0 <= i < aLen b →
  overread (GetOrder e (fun k => load b (i + k))) = true
  ↔ value (load b i) = hiragana_lead e ∧ i + 1 = aLen b.
Proof.
  intros Hi. split.
  - intros Hov. apply decode_overread in Hov; assumption.
  - intros [Hlead Hend].
    destruct (load_in b i Hi) as (c & _ & Hl).
    rewrite GetOrder_overread by (rewrite Z.add_0_r, Hl; reflexivity).
    rewrite Z.add_0_r, Hlead, Z.eqb_refl.
    rewrite load_out by lia. reflexivity.
Qed.

Lemma GetOrder_overreads_iff_witness :
  let b := mkBuffer [x41; x82] x00 in
  0 <= 1 < aLen b
  ∧ overread (GetOrder SJIS (fun k => load b (1 + k))) = true.
Proof.
  cbn zeta.
  assert (0 <= 1 < aLen (mkBuffer [x41; x82] x00)) as H
    by (unfold aLen; cbn; lia).
  split; [exact H|].
  apply (GetOrder_overreads_iff SJIS (mkBuffer [x41; x82] x00) 1 H).
  split; reflexivity.
Defined.

(** ** The table and the counters *)

Lemma table_dims :
  length jp2CharContext = 83%nat
  ∧ forallb (fun r => (length r =? 83)%nat) jp2CharContext = true.
Proof. vm_compute. split; reflexivity. Qed.

Lemma table_cell (a b : Z) :
  0 <= a <= 82 → 0 <= b <= 82 →
  ∃ row : list Z,
    jp2CharContext !! Z.to_nat a = Some row
    ∧ row !! Z.to_nat b = Some (category a b).
Proof.
  intros Ha Hb. destruct table_dims as [Hlen Hrows].
  destruct (lookup_lt_is_Some_2 jp2CharContext (Z.to_nat a)) as [row Hrow];
    [lia|].
  exists row. split; [exact Hrow|].
  rewrite forallb_forall in Hrows.
  assert (length row = 83%nat) as Hr.
  { apply Nat.eqb_eq, Hrows, list_elem_of_In.
    eapply list_elem_of_lookup_2, Hrow. }
  destruct (lookup_lt_is_Some_2 row (Z.to_nat b)) as [v Hv]; [lia|].
  unfold category.
  rewrite (list_lookup_total_correct _ _ _ Hrow).
  rewrite (list_lookup_total_correct _ _ _ Hv). exact Hv.
Qed.

(** X3.  Whenever [HandleData] counts a pair, that is in a reachable state
    with a preceding order and a decoded order other than -1, both orders
    lie in 0..82, so [jp2CharContext[mLastCharOrder][order]] is a cell of
    the 83x83 table, and its value is the index of one of the counters of
    [mRelSample]: neither array is accessed out of bounds. *)
Theorem histogram_index_in_bounds (M : Z) (e : Encoding) (st : State)
    (b : Buffer) (i : Z) :
  0 <= M < 2 ^ 32 - 1 →
  reachable M e st →
  mLastCharOrder st ≠ -1 →
  (decode e b i).1 ≠ -1 →
  (0 <= mLastCharOrder st <= 82 ∧ 0 <= (decode e b i).1 <= 82)
  ∧ (∃ row : list Z,
       jp2CharContext !! Z.to_nat (mLastCharOrder st) = Some row
       ∧ row !! Z.to_nat (decode e b i).1
         = Some (category (mLastCharOrder st) (decode e b i).1))
  ∧ (Z.to_nat (category (mLastCharOrder st) (decode e b i).1)
     < length (mRelSample st))%nat.
Proof.
  intros HM Hr Hl Ho.
  destruct (reachable_Inv M e st HM Hr) as [Hty _ _ _ Hlast _ _].
  assert (0 <= mLastCharOrder st <= 82) as Ha by lia.
  assert (0 <= (decode e b i).1 <= 82) as Hb.
  { destruct (decode_order e b i); [contradiction|assumption]. }
  split; [split; assumption|]. split.
  - apply table_cell; assumption.
  - pose proof (category_range (mLastCharOrder st) (decode e b i).1).
    unfold typed in Hty. rewrite Hty. unfold NUM_OF_CATEGORY. lia.
Qed.

Lemma histogram_index_in_bounds_witness :
  let st := ingest 1000 SJIS initial hiragana_1 in
  (0 <= 1000 < 2 ^ 32 - 1
   ∧ reachable 1000 SJIS st
   ∧ mLastCharOrder st ≠ -1
   ∧ (decode SJIS hiragana_1 0).1 ≠ -1)
  ∧ (Z.to_nat (category (mLastCharOrder st) (decode SJIS hiragana_1 0).1)
     < length (mRelSample st))%nat.
Proof.
  cbn zeta.
  assert (0 <= 1000 < 2 ^ 32 - 1) as HM by lia.
  assert (reachable 1000 SJIS (ingest 1000 SJIS initial hiragana_1)) as Hr.
  { apply reach_HandleData; [apply reach_initial|].
    unfold chunk_ok, aLen; cbn; lia. }
  assert (mLastCharOrder (ingest 1000 SJIS initial hiragana_1) ≠ -1) as Hl
    by (vm_compute; discriminate).
  assert ((decode SJIS hiragana_1 0).1 ≠ -1) as Ho
    by (vm_compute; discriminate).
  split; [split; [exact HM|split; [exact Hr|split; assumption]]|].
  apply (histogram_index_in_bounds 1000 SJIS _ hiragana_1 0 HM Hr Hl Ho).
Defined.

(** ** What a call leaves alone *)

Lemma scan_frame (M : Z) (e : Encoding) (fuel : nat) (b : Buffer) :
  ∀ (i : Z) (st : State),
    mDataThreshold (value (scan M e fuel b i st)) = mDataThreshold st
    ∧ length (mRelSample (value (scan M e fuel b i st)))
      = length (mRelSample st).
Proof.
  induction fuel as [|fuel IH]; intros i st; [split; reflexivity|].
  rewrite scan_S. destruct (i <? aLen b); [|split; reflexivity]. cbn zeta.
  destruct (aLen b <? _); [|destruct (negb (_ =? -1) && negb (_ =? -1));
    [destruct (M <? _); [split; reflexivity|]|]];
    match goal with
    | |- context [scan M e fuel b ?j ?s] => destruct (IH j s) as [-> ->]
    end;
    st_simpl; rewrite ?incr_sample_length; split; reflexivity.
Qed.

(** X4.  Whatever the state and the buffer, [HandleData] changes neither
    [mDataThreshold] nor the number of counters in [mRelSample]; only
    [Reset] writes the threshold. *)
Theorem HandleData_frame (M : Z) (e : Encoding) (st : State) (b : Buffer) :
  mDataThreshold (ingest M e st b) = mDataThreshold st
  ∧ length (mRelSample (ingest M e st b)) = length (mRelSample st).
Proof.
  unfold ingest, HandleData. destruct (mDone st); [split; reflexivity|].
  apply scan_frame.
Qed.

(** X5.  An empty buffer is a valid input: on every state [HandleData]
    returns the state as it was and reads no byte, not even the one behind
    the buffer. *)
Theorem HandleData_empty (M : Z) (e : Encoding) (st : State) (p : byte) :
  HandleData M e st (mkBuffer [] p) = mkRd st false.
Proof. unfold HandleData. destruct (mDone st); reflexivity. Qed.

(** ** Buffers without hiragana *)

Lemma GetOrder_not_lead (e : Encoding) (str : Z → Rd Z) :
  value (str 0) ≠ hiragana_lead e → (value (GetOrder e str)).1 = -1.
Proof.
  intros H. decoder_cases e; split_ifs; try reflexivity; lia.
Qed.

Lemma scan_no_lead (M : Z) (e : Encoding) (fuel : nat) (b : Buffer) :
  Forall (fun c => uchar c ≠ hiragana_lead e) (aBuf b) →
  ∀ (i : Z) (st : State),
    0 <= i →
    overread (scan M e fuel b i st) = false
    ∧ mTotalRel (value (scan M e fuel b i st)) = mTotalRel st
    ∧ mRelSample (value (scan M e fuel b i st)) = mRelSample st
    ∧ mDone (value (scan M e fuel b i st)) = mDone st.
Proof.
  intros Hb. induction fuel as [|fuel IH]; intros i st Hi;
    [repeat split; reflexivity|].
  cbn [scan].
  destruct (Z.ltb_spec i (aLen b)) as [Hlt|Hge]; [|repeat split; reflexivity].
  destruct (load_in b i ltac:(lia)) as (c & Hc & Hl).
  assert (uchar c ≠ hiragana_lead e) as Hne.
  { rewrite Forall_forall in Hb. apply Hb.
    eapply list_elem_of_lookup_2, Hc. }
  assert (value (load b (i + 0)) = uchar c ∧ overread (load b (i + 0)) = false)
    as [Hv Ho] by (rewrite Z.add_0_r, Hl; split; reflexivity).
  rewrite overread_bind, value_bind.
  rewrite GetOrder_overread by exact Ho. rewrite Hv.
  destruct (Z.eqb_spec (uchar c) (hiragana_lead e)); [contradiction|].
  rewrite GetOrder_not_lead by (rewrite Hv; exact Hne).
  change (negb (-1 =? -1)) with false. cbn [orb andb]. cbn zeta.
  pose proof (wrap32_range
    (i + (value (GetOrder e (fun k => load b (i + k)))).2)) as Hw.
  destruct (aLen b <? _); cbv beta iota;
    match goal with
    | |- context [scan M e fuel b ?j ?s] =>
        destruct (IH j s ltac:(lia)) as (-> & -> & -> & ->)
    end; repeat split; reflexivity.
Qed.

(** X6.  On a buffer that holds no hiragana lead byte (0x82 for Shift-JIS,
    0xA4 for EUC-JP), plain ASCII for one, [HandleData] counts nothing:
    [mTotalRel], the counters and [mDone] are as before, and no byte behind
    the buffer is read. *)
Theorem no_lead_byte_no_pairs (M : Z) (e : Encoding) (st : State)
    (b : Buffer) :
  Forall (fun c => uchar c ≠ hiragana_lead e) (aBuf b) →
  0 <= mNeedToSkipCharNum st →
  overread (HandleData M e st b) = false
  ∧ mTotalRel (ingest M e st b) = mTotalRel st
  ∧ mRelSample (ingest M e st b) = mRelSample st
  ∧ mDone (ingest M e st b) = mDone st.
Proof.
  intros Hb Hs. unfold ingest, HandleData.
  destruct (mDone st) eqn:Hd; [repeat split; exact Hd|].
  rewrite <- Hd at 2. apply scan_no_lead; assumption.
Qed.

Lemma no_lead_byte_no_pairs_witness :
  let st := ingest 1000 SJIS initial hiragana_1 in
  let b := mkBuffer [x41; x53; x43; x49; x49] x82 in
  (Forall (fun c => uchar c ≠ hiragana_lead SJIS) (aBuf b)
   ∧ 0 <= mNeedToSkipCharNum st)
  ∧ overread (HandleData 1000 SJIS st b) = false
  ∧ mTotalRel (ingest 1000 SJIS st b) = mTotalRel st.
Proof.
  cbn zeta.
  assert (Forall (fun c => uchar c ≠ hiragana_lead SJIS)
            (aBuf (mkBuffer [x41; x53; x43; x49; x49] x82))) as Hb.
  { repeat (apply List.Forall_cons; [vm_compute; discriminate|]).
    apply List.Forall_nil. }
  assert (0 <= mNeedToSkipCharNum (ingest 1000 SJIS initial hiragana_1))
    as Hs by (vm_compute; discriminate).
  split; [split; assumption|].
  split; apply (no_lead_byte_no_pairs 1000 SJIS _ _ Hb Hs).
Defined.

(** ** The relation count over a call *)

Lemma decode_hiragana_len (e : Encoding) (b : Buffer) (i : Z) :
  (decode e b i).1 ≠ -1 → (decode e b i).2 = 2.
Proof.
  unfold decode. generalize (fun k : Z => load b (i + k)). intros str.
  decoder_cases e; cbn [value fst snd];
    decide_bounds; cbn [value fst snd]; intros Hne;
    try (exfalso; apply Hne; reflexivity); lia.
Qed.

(** Every pair the loop counts is a two-byte character that ends inside
    the buffer: from offset [i] on, twice the number of pairs counted is at
    most the number of bytes left.  The bound comes from the offsets, not
    from the fuel. *)
Lemma scan_total_half (M : Z) (e : Encoding) (b : Buffer) :
  chunk_ok b →
  0 <= M < 2 ^ 32 - 1 →
  ∀ (fuel : nat) (i : Z) (st : State),
    0 <= i →
    0 <= mTotalRel st <= M →
    mTotalRel st <= mTotalRel (value (scan M e fuel b i st))
    ∧ 2 * (mTotalRel (value (scan M e fuel b i st)) - mTotalRel st)
      <= Z.max 0 (aLen b - i).
Proof.
  intros Hb HM. induction fuel as [|fuel IH]; intros i st Hi Ht;
    [cbn; lia|].
  rewrite scan_S. destruct (Z.ltb_spec i (aLen b)) as [Hlt|Hge]; [|lia].
  cbn zeta. rewrite (step_no_wrap e b i Hb) by lia.
  pose proof (decode_charLen e b i) as Hlen.
  destruct (Z.ltb_spec (aLen b) (i + (decode e b i).2)) as [Hover|Hin].
  { specialize (IH (i + (decode e b i).2)
      (set_mLastCharOrder (-1)
         (set_mNeedToSkipCharNum (i + (decode e b i).2 - aLen b) st))
      ltac:(lia) Ht).
    revert IH. st_simpl. lia. }
  destruct (negb ((decode e b i).1 =? -1) && negb (mLastCharOrder st =? -1))
    eqn:Hpair.
  - assert ((decode e b i).2 = 2) as Htwo.
    { apply decode_hiragana_len.
      apply andb_prop in Hpair. destruct Hpair as [Hne _].
      destruct (Z.eqb_spec (decode e b i).1 (-1)); [discriminate|assumption]. }
    rewrite wrap32_small by lia.
    destruct (Z.ltb_spec M (mTotalRel st + 1)); [st_simpl; lia|].
    match goal with
    | |- context [scan M e fuel b ?j ?s] =>
        specialize (IH j s ltac:(lia) ltac:(st_simpl; lia))
    end.
    revert IH. st_simpl. lia.
  - specialize (IH (i + (decode e b i).2)
      (set_mLastCharOrder (decode e b i).1 st) ltac:(lia) Ht).
    revert IH. st_simpl. lia.
Qed.

(** X7.  In a reachable state a call of [HandleData] on a buffer whose
    length leaves room for the 32-bit offset never lowers [mTotalRel], and
    raises it by no more than half the number of bytes it scans, those
    behind the [mNeedToSkipCharNum] bytes it skips: every pair counted is a
    two-byte character of the buffer. *)
Theorem total_never_decreases (M : Z) (e : Encoding) (st : State)
    (b : Buffer) :
  0 <= M < 2 ^ 32 - 1 →
  reachable M e st →
  chunk_ok b →
  mTotalRel st <= mTotalRel (ingest M e st b)
  ∧ 2 * (mTotalRel (ingest M e st b) - mTotalRel st)
    <= Z.max 0 (aLen b - mNeedToSkipCharNum st)
  ∧ mTotalRel (ingest M e st b) <= mTotalRel st + aLen b.
Proof.
  intros HM Hr Hb.
  destruct (reachable_Inv M e st HM Hr) as [_ _ _ Hbd _ _ Hs].
  assert (0 <= aLen b) as Hlen by (unfold aLen; lia).
  unfold ingest, HandleData.
  destruct (mDone st); [cbn [value mret Rd_ret]; lia|].
  destruct (scan_total_half M e b Hb HM (length (aBuf b))
              (mNeedToSkipCharNum st) st Hs Hbd) as [H1 H2].
  lia.
Qed.

Lemma total_never_decreases_witness :
  let st := ingest 1000 SJIS initial hiragana_1 in
  let b := mkBuffer [x82; xa2; x82; xa0; x82] x00 in
  (0 <= 1000 < 2 ^ 32 - 1 ∧ reachable 1000 SJIS st ∧ chunk_ok b)
  ∧ mTotalRel (ingest 1000 SJIS st b) = mTotalRel st + 2
  ∧ 2 * (mTotalRel (ingest 1000 SJIS st b) - mTotalRel st)
    <= Z.max 0 (aLen b - mNeedToSkipCharNum st).
Proof.
  cbn zeta.
  assert (0 <= 1000 < 2 ^ 32 - 1) as HM by lia.
  assert (reachable 1000 SJIS (ingest 1000 SJIS initial hiragana_1)) as Hr.
  { apply reach_HandleData; [apply reach_initial|].
    unfold chunk_ok, aLen; cbn; lia. }
  assert (chunk_ok (mkBuffer [x82; xa2; x82; xa0; x82] x00)) as Hb
    by (unfold chunk_ok, aLen; cbn; lia).
  split; [split; [exact HM|split; [exact Hr|exact Hb]]|].
  split; [reflexivity|].
  exact (proj1 (proj2 (total_never_decreases 1000 SJIS
           (ingest 1000 SJIS initial hiragana_1)
           (mkBuffer [x82; xa2; x82; xa0; x82] x00) HM Hr Hb))).
Defined.

(** X8.  In every reachable state [mDone] is set exactly when [mTotalRel]
    exceeds [MAX_REL_THRESHOLD], and [mTotalRel] is at most
    [MAX_REL_THRESHOLD + 1]: the 32-bit count never wraps. *)
Theorem done_iff_bound_exceeded (M : Z) (e : Encoding) (st : State) :
  0 <= M < 2 ^ 32 - 1 →
  reachable M e st →
  (mDone st = true ↔ M < mTotalRel st)
  ∧ 0 <= mTotalRel st <= M + 1.
Proof.
  intros HM Hr.
  destruct (reachable_Inv M e st HM Hr) as [_ _ _ Hbd _ _ _].
  destruct (mDone st); split; try lia; split; (discriminate || lia || auto).
Qed.

Lemma done_iff_bound_exceeded_witness :
  let st := ingest_all 2 SJIS initial (replicate 4 hiragana_1) in
  (0 <= 2 < 2 ^ 32 - 1 ∧ reachable 2 SJIS st)
  ∧ mDone st = true ∧ 2 < mTotalRel st.
Proof.
  cbn zeta.
  assert (0 <= 2 < 2 ^ 32 - 1) as HM by lia.
  assert (reachable 2 SJIS
            (ingest_all 2 SJIS initial (replicate 4 hiragana_1))) as Hr.
  { apply ingest_all_reachable; [chunks_ok|apply reach_initial]. }
  split; [split; assumption|].
  split; [reflexivity|].
  apply (done_iff_bound_exceeded 2 SJIS _ HM Hr). reflexivity.
Defined.

(** ** The number of bytes to skip *)

Lemma charLen_of_max (e : Encoding) (c0 : Z) :
  charLen_of e c0 <= (match e with SJIS => 2 | EUCJP => 3 end).
Proof. decoder_cases e; split_ifs; lia. Qed.

Lemma scan_skip_range (M : Z) (e : Encoding) (fuel : nat) (b : Buffer) :
  chunk_ok b →
  ∀ (i : Z) (st : State),
    0 <= i →
    0 <= mNeedToSkipCharNum st <= (match e with SJIS => 1 | EUCJP => 2 end) →
    0 <= mNeedToSkipCharNum (value (scan M e fuel b i st))
      <= (match e with SJIS => 1 | EUCJP => 2 end).
Proof.
  intros Hb. induction fuel as [|fuel IH]; intros i st Hi Hs; [exact Hs|].
  rewrite scan_S.
  destruct (Z.ltb_spec i (aLen b)) as [Hlt|Hge]; [|exact Hs]. cbn zeta.
  rewrite (step_no_wrap e b i Hb) by lia.
  pose proof (decode_charLen e b i) as Hc.
  assert ((decode e b i).2 <= match e with SJIS => 2 | EUCJP => 3 end)
    as Hmax.
  { unfold decode. rewrite GetOrder_charLen. apply charLen_of_max. }
  destruct (Z.ltb_spec (aLen b) (i + (decode e b i).2)).
  { apply IH; [lia|]. st_simpl. destruct e; lia. }
  destruct (negb (_ =? -1) && negb (_ =? -1)).
  - destruct (M <? _); [exact Hs|]. apply IH; [lia|exact Hs].
  - apply IH; [lia|exact Hs].
Qed.

(** X9.  In every reachable state [mNeedToSkipCharNum] is 0 or 1 for the
    Shift-JIS analyser and 0, 1 or 2 for the EUC-JP analyser: at most the
    bytes that a character started in one buffer can still lack. *)
Theorem skip_count_range (M : Z) (e : Encoding) (st : State) :
  reachable M e st →
  0 <= mNeedToSkipCharNum st <= (match e with SJIS => 1 | EUCJP => 2 end).
Proof.
  induction 1 as [|st b _ IH Hb|st _ _].
  - destruct e; cbn; lia.
  - unfold ingest, HandleData. destruct (mDone st); [exact IH|].
    apply scan_skip_range; [exact Hb|lia|exact IH].
  - destruct e; cbn; lia.
Qed.

Lemma skip_count_range_witness :
  let st := ingest 1000 EUCJP initial (mkBuffer [xa4; xa2; x8f] x00) in
  reachable 1000 EUCJP st
  ∧ mNeedToSkipCharNum st = 2
  ∧ 0 <= mNeedToSkipCharNum st <= 2.
Proof.
  cbn zeta.
  assert (reachable 1000 EUCJP
            (ingest 1000 EUCJP initial (mkBuffer [xa4; xa2; x8f] x00)))
    as Hr.
  { apply reach_HandleData; [apply reach_initial|].
    unfold chunk_ok, aLen; cbn; lia. }
  split; [exact Hr|]. split; [reflexivity|].
  exact (skip_count_range 1000 EUCJP _ Hr).
Defined.

(** ** Reset and reuse *)

(** X10.  [Reset] forgets the state it is applied to: from any two states
    of the object it gives the same state, applying it twice is applying it
    once, and the same buffers handled after it give the same state and
    the same confidence. *)
Theorem Reset_forgets (M : Z) (e : Encoding) (st st' : State)
    (bs : list Buffer) :
  typed st → typed st' →
  Reset st = Reset st'
  ∧ Reset (Reset st) = Reset st
  ∧ ingest_all M e (Reset st) bs = ingest_all M e (Reset st') bs
  ∧ GetConfidence (ingest_all M e (Reset st) bs)
    = GetConfidence (ingest_all M e (Reset st') bs).
Proof.
  intros H H'. rewrite !(Reset_typed st H), !(Reset_typed st' H').
  repeat split.
Qed.

Lemma Reset_forgets_witness :
  let st := ingest_all 2 SJIS initial (replicate 4 hiragana_1) in
  let st' := ingest 2 SJIS initial (mkBuffer [x82] x00) in
  (typed st ∧ typed st')
  ∧ mDone st = true ∧ mNeedToSkipCharNum st' = 1
  ∧ Reset st = Reset st'.
Proof.
  cbn zeta.
  assert (typed (ingest_all 2 SJIS initial (replicate 4 hiragana_1))) as H
    by reflexivity.
  assert (typed (ingest 2 SJIS initial (mkBuffer [x82] x00))) as H'
    by reflexivity.
  split; [split; assumption|]. split; [reflexivity|]. split; [reflexivity|].
  apply (Reset_forgets 2 SJIS _ _ [] H H').
Defined.

(** ** The loop and the byte behind the buffer *)

(** X11.  On a buffer whose length leaves room for the 32-bit offset, the
    loop of [HandleData] is over after at most
    [aLen - mNeedToSkipCharNum] iterations: every iteration moves the
    offset forward by one to three bytes, and further iterations would
    change nothing, neither the state nor what has been read. *)
Theorem HandleData_loop_ends (M : Z) (e : Encoding) (st : State)
    (b : Buffer) (more : nat) :
  chunk_ok b →
  0 <= mNeedToSkipCharNum st →
  (∀ i : Z, 1 <= (decode e b i).2 <= 3)
  ∧ scan M e (Z.to_nat (aLen b - mNeedToSkipCharNum st) + more) b
      (mNeedToSkipCharNum st) st
    = scan M e (Z.to_nat (aLen b - mNeedToSkipCharNum st)) b
        (mNeedToSkipCharNum st) st
  ∧ HandleData M e st b
    = if mDone st then mret st
      else scan M e (Z.to_nat (aLen b - mNeedToSkipCharNum st)) b
             (mNeedToSkipCharNum st) st.
Proof.
  intros Hb Hs. split; [intros i; apply decode_charLen|]. split.
  - apply scan_fuel; [exact Hb|exact Hs|lia].
  - rewrite HandleData_run by assumption. reflexivity.
Qed.

Lemma HandleData_loop_ends_witness :
  let b := mkBuffer [x82; xa0; x41; x82; xa2] x00 in
  (chunk_ok b ∧ 0 <= mNeedToSkipCharNum initial)
  ∧ scan 1000 SJIS (Z.to_nat (aLen b - mNeedToSkipCharNum initial) + 7) b
      (mNeedToSkipCharNum initial) initial
    = scan 1000 SJIS (Z.to_nat (aLen b - mNeedToSkipCharNum initial)) b
        (mNeedToSkipCharNum initial) initial.
Proof.
  cbn zeta.
  assert (chunk_ok (mkBuffer [x82; xa0; x41; x82; xa2] x00)) as Hb
    by (unfold chunk_ok, aLen; cbn; lia).
  assert (0 <= mNeedToSkipCharNum initial) as Hs by (cbn; lia).
  split; [split; assumption|].
  exact (proj1 (proj2 (HandleData_loop_ends 1000 SJIS initial
           (mkBuffer [x82; xa0; x41; x82; xa2] x00) 7 Hb Hs))).
Defined.

(** X12.  The byte that lies behind the buffer, which a decoder may read,
    has no influence on the state a call of [HandleData] leaves, nor on
    the confidence. *)
Theorem past_byte_irrelevant (M : Z) (e : Encoding) (st : State)
    (l : list byte) (p p' : byte) :
  chunk_ok (mkBuffer l p) →
  0 <= mNeedToSkipCharNum st →
  ingest M e st (mkBuffer l p) = ingest M e st (mkBuffer l p')
  ∧ GetConfidence (ingest M e st (mkBuffer l p))
    = GetConfidence (ingest M e st (mkBuffer l p')).
Proof.
  intros Hb Hs. rewrite (ingest_past M e st l p p' Hb Hs).
  split; reflexivity.
Qed.

Lemma past_byte_irrelevant_witness :
  let l := [x82; xa0; x82] in
  (chunk_ok (mkBuffer l xa0) ∧ 0 <= mNeedToSkipCharNum initial)
  ∧ overread (HandleData 1000 SJIS initial (mkBuffer l xa0)) = true
  ∧ ingest 1000 SJIS initial (mkBuffer l xa0)
    = ingest 1000 SJIS initial (mkBuffer l x00).
Proof.
  cbn zeta.
  assert (chunk_ok (mkBuffer [x82; xa0; x82] xa0)) as Hb
    by (unfold chunk_ok, aLen; cbn; lia).
  assert (0 <= mNeedToSkipCharNum initial) as Hs by (cbn; lia).
  split; [split; assumption|]. split; [reflexivity|].
  apply (past_byte_irrelevant 1000 SJIS initial [x82; xa0; x82] xa0 x00 Hb Hs).
Defined.

(** ** Cutting a stream on character boundaries *)

(** X13.  Starting with no byte to skip, two ways of cutting the same
    stream into buffers that all end on character boundaries leave the
    same state, the one a single call on the whole stream leaves, and so
    the same confidence. *)
Theorem aligned_chunkings_agree (M : Z) (e : Encoding) (st : State)
    (c1 c2 : list (list byte * byte)) (p : byte) :
  chunk_ok (mkBuffer (stream c1) p) →
  stream c1 = stream c2 →
  Forall (fun c => lands e c.1 0) c1 →
  Forall (fun c => lands e c.1 0) c2 →
  mNeedToSkipCharNum st = 0 →
  ingest_all M e st (buffers c1) = ingest M e st (mkBuffer (stream c1) p)
  ∧ ingest_all M e st (buffers c1) = ingest_all M e st (buffers c2)
  ∧ GetConfidence (ingest_all M e st (buffers c1))
    = GetConfidence (ingest_all M e st (buffers c2)).
Proof.
  intros Hw Heq H1 H2 Hs.
  assert (ingest_all M e st (buffers c1)
          = ingest M e st (mkBuffer (stream c1) p)) as E1
    by (apply ingest_all_aligned; assumption).
  assert (ingest_all M e st (buffers c2)
          = ingest M e st (mkBuffer (stream c2) p)) as E2
    by (apply ingest_all_aligned; [rewrite <- Heq|..]; assumption).
  rewrite E1, E2, Heq. repeat split.
Qed.

Lemma aligned_chunkings_agree_witness :
  let c1 := [([x82; xa0], x00); ([x41; x82; xa2; x82; x9f], x00)] in
  let c2 := [([x82; xa0; x41], x00); ([x82; xa2], x00); ([x82; x9f], x00)] in
  (chunk_ok (mkBuffer (stream c1) x00)
   ∧ stream c1 = stream c2
   ∧ Forall (fun c => lands SJIS c.1 0) c1
   ∧ Forall (fun c => lands SJIS c.1 0) c2
   ∧ mNeedToSkipCharNum initial = 0)
  ∧ ingest_all 1000 SJIS initial (buffers c1)
    = ingest_all 1000 SJIS initial (buffers c2).
Proof.
  cbn zeta.
  assert (lands SJIS [x82; xa0] 0) as La.
  { apply (lands_step SJIS _ 0 x82); [lia|reflexivity|].
    exact (lands_end SJIS [x82; xa0]). }
  assert (lands SJIS [x41; x82; xa2; x82; x9f] 0) as Lb.
  { apply (lands_step SJIS _ 0 x41); [lia|reflexivity|].
    apply (lands_step SJIS _ 1 x82); [lia|reflexivity|].
    apply (lands_step SJIS _ 3 x82); [lia|reflexivity|].
    exact (lands_end SJIS [x41; x82; xa2; x82; x9f]). }
  assert (lands SJIS [x82; xa0; x41] 0) as Lc.
  { apply (lands_step SJIS _ 0 x82); [lia|reflexivity|].
    apply (lands_step SJIS _ 2 x41); [lia|reflexivity|].
    exact (lands_end SJIS [x82; xa0; x41]). }
  assert (lands SJIS [x82; xa2] 0) as Ld.
  { apply (lands_step SJIS _ 0 x82); [lia|reflexivity|].
    exact (lands_end SJIS [x82; xa2]). }
  assert (lands SJIS [x82; x9f] 0) as Le.
  { apply (lands_step SJIS _ 0 x82); [lia|reflexivity|].
    exact (lands_end SJIS [x82; x9f]). }
  assert (chunk_ok (mkBuffer
    (stream [([x82; xa0], x00); ([x41; x82; xa2; x82; x9f], x00)]) x00))
    as Hw by (unfold chunk_ok, aLen; cbn; lia).
  assert (Forall (fun c : list byte * byte => lands SJIS c.1 0)
    [([x82; xa0], x00); ([x41; x82; xa2; x82; x9f], x00)]) as H1
    by (repeat (apply List.Forall_cons; [assumption|]); apply List.Forall_nil).
  assert (Forall (fun c : list byte * byte => lands SJIS c.1 0)
    [([x82; xa0; x41], x00); ([x82; xa2], x00); ([x82; x9f], x00)]) as H2
    by (repeat (apply List.Forall_cons; [assumption|]); apply List.Forall_nil).
  split; [split; [exact Hw|split; [reflexivity|split; [exact H1|
    split; [exact H2|reflexivity]]]]|].
  exact (proj1 (proj2 (aligned_chunkings_agree 1000 SJIS initial
    [([x82; xa0], x00); ([x41; x82; xa2; x82; x9f], x00)]
    [([x82; xa0; x41], x00); ([x82; xa2], x00); ([x82; x9f], x00)]
    x00 Hw eq_refl H1 H2 eq_refl))).
Defined.

(** ** The bound *)



(** ** When a byte behind the buffer is read *)

Lemma scan_overread (M : Z) (e : Encoding) (fuel : nat) (b : Buffer) :
  chunk_ok b →
  ∀ (i : Z) (st : State),
    0 <= i →
    overread (scan M e fuel b i st) = true →
    (∃ c : byte, last (aBuf b) = Some c ∧ uchar c = hiragana_lead e)
    ∧ mNeedToSkipCharNum (value (scan M e fuel b i st)) = 1
    ∧ mLastCharOrder (value (scan M e fuel b i st)) = -1.
Proof.
  intros Hb. induction fuel as [|fuel IH]; intros i st Hi Hov;
    [discriminate Hov|].
  revert Hov. cbn [scan].
  destruct (Z.ltb_spec i (aLen b)) as [Hlt|Hge]; [|discriminate].
  rewrite overread_bind, value_bind. fold (decode e b i). cbn zeta.
  rewrite (step_no_wrap e b i Hb) by lia.
  pose proof (decode_charLen e b i) as Hc.
  destruct (overread (GetOrder e (fun k => load b (i + k)))) eqn:Hg.
  - intros _. apply decode_overread in Hg as [Hlead Hend]; [|lia].
    destruct (load_in b i ltac:(lia)) as (c & Hlk & Hl).
    rewrite Hl in Hlead. cbn [value] in Hlead.
    assert ((decode e b i).2 = 2) as Hc2.
    { rewrite (decode_lookup e b i c) by (lia || exact Hlk).
      rewrite Hlead. apply charLen_of_lead. }
    rewrite Hc2.
    destruct (Z.ltb_spec (aLen b) (i + 2)); [|lia].
    rewrite scan_past_end by lia. cbn [mret Rd_ret value]. st_simpl.
    split; [|split; [lia|reflexivity]].
    exists c. split; [|exact Hlead].
    rewrite last_lookup. rewrite <- Hlk. f_equal. unfold aLen in Hend. lia.
  - cbn [orb].
    destruct (aLen b <? _); [apply IH; lia|].
    destruct (negb (_ =? -1) && negb (_ =? -1)); [|apply IH; lia].
    destruct (M <? _); [discriminate|apply IH; lia].
Qed.

(** X15.  A call of [HandleData] reads behind the buffer only when the
    last byte of the buffer is the hiragana lead byte; it then reads one
    byte only, and leaves one byte to skip and no preceding order. *)
Theorem overread_only_after_lead (M : Z) (e : Encoding) (st : State)
    (b : Buffer) :
  chunk_ok b →
  0 <= mNeedToSkipCharNum st →
  overread (HandleData M e st b) = true →
  (∃ c : byte, last (aBuf b) = Some c ∧ uchar c = hiragana_lead e)
  ∧ mNeedToSkipCharNum (ingest M e st b) = 1
  ∧ mLastCharOrder (ingest M e st b) = -1.
Proof.
  intros Hb Hs. unfold ingest, HandleData.
  destruct (mDone st); [discriminate|].
  apply scan_overread; assumption.
Qed.

Lemma overread_only_after_lead_witness :
  let b := mkBuffer [xa4; xa2; xa4] x00 in
  (chunk_ok b
   ∧ 0 <= mNeedToSkipCharNum initial
   ∧ overread (HandleData 1000 EUCJP initial b) = true)
  ∧ last (aBuf b) = Some xa4
  ∧ mNeedToSkipCharNum (ingest 1000 EUCJP initial b) = 1.
Proof.
  cbn zeta.
  assert (chunk_ok (mkBuffer [xa4; xa2; xa4] x00)) as Hb
    by (unfold chunk_ok, aLen; cbn; lia).
  assert (0 <= mNeedToSkipCharNum initial) as Hs by (cbn; lia).
  assert (overread (HandleData 1000 EUCJP initial
                      (mkBuffer [xa4; xa2; xa4] x00)) = true) as Ho
    by reflexivity.
  split; [split; [exact Hb|split; [exact Hs|exact Ho]]|].
  split; [reflexivity|].
  exact (proj1 (proj2 (overread_only_after_lead 1000 EUCJP initial
           (mkBuffer [xa4; xa2; xa4] x00) Hb Hs Ho))).
Defined.

(** ** The extremes of the confidence *)

(** X16.  In a reachable state with at least one pair counted, the
    confidence is 0 exactly when [mRelSample[0]] equals [mTotalRel], and it
    is 1 when no pair of category 0 has been recorded; once [mDone] is set
    it is above 0, the last pair counted not being recorded in any
    category.  As long as [mTotalRel] has at most 24 bits, the confidence
    is 1 only when no pair of category 0 has been recorded, and is at most
    [1 - 2^-24] otherwise.  Beyond 24 bits the conversion to [float] rounds
    the counters, and the quotient of [2^24] by [2^24 + 1] is 1. *)
Theorem confidence_extremes (M : Z) (e : Encoding) (st : State) :
  0 <= M < 2 ^ 32 - 1 →
  reachable M e st →
  0 < mTotalRel st →
  ((GetConfidence st == 0)%Q ↔ mRelSample st !!! 0%nat = mTotalRel st)
  ∧ (mRelSample st !!! 0%nat = 0 → (GetConfidence st == 1)%Q)
  ∧ (mDone st = true → (0 < GetConfidence st)%Q)
  ∧ (mTotalRel st <= 2 ^ 24 →
     ((GetConfidence st == 1)%Q ↔ mRelSample st !!! 0%nat = 0)
     ∧ (mRelSample st !!! 0%nat ≠ 0 →
        (GetConfidence st <= 16777215 # 16777216)%Q))
  ∧ fdiv32 (of_uint32 (2 ^ 24)) (of_uint32 (2 ^ 24 + 1)) = 1%Q.
Proof.
  intros HM Hr Ht.
  destruct (reachable_Inv M e st HM Hr) as [Hty Hnn Htot Hbd _ Hthr _].
  pose proof (total_samples_ge (mRelSample st) 0 Hnn) as H0.
  unfold typed in Hty. rewrite Hty in H0.
  specialize (H0 ltac:(unfold NUM_OF_CATEGORY; lia)).
  unfold GetConfidence. rewrite Hthr.
  destruct (Z.ltb_spec 0 (mTotalRel st)); [|lia].
  assert (mTotalRel st < 2 ^ 32) as Hlt by (destruct (mDone st); lia).
  assert (mRelSample st !!! 0%nat <= mTotalRel st) as Hle
    by (destruct (mDone st); lia).
  rewrite wrap32_small by lia.
  set (h := mRelSample st !!! 0%nat) in *.
  set (t := mTotalRel st) in *.
  assert (h = 0 → (fdiv32 (of_uint32 (t - h)) (of_uint32 t) == 1)%Q) as Hone.
  { intros ->. rewrite Z.sub_0_r. apply fdiv32_one. exact Ht. }
  split; [|split; [exact Hone|split; [|split; [|reflexivity]]]].
  - split.
    + intros Hz. destruct (Z.eq_dec h t) as [E|E]; [exact E|exfalso].
      pose proof (fdiv32_pos (t - h) t ltac:(lia) Ht) as Hp.
      rewrite Hz in Hp. exact (Qlt_irrefl _ Hp).
    + intros ->. rewrite Z.sub_diag. apply fdiv32_zero.
  - intros Hd. rewrite Hd in Htot. apply fdiv32_pos; lia.
  - intros H24.
    assert (h ≠ 0 →
            (fdiv32 (of_uint32 (t - h)) (of_uint32 t)
             <= 16777215 # 16777216)%Q) as Hbelow.
    { intros Hne. apply fdiv32_below_one; lia. }
    split; [split; [|exact Hone]|exact Hbelow].
    intros H1. destruct (Z.eq_dec h 0) as [E|E]; [exact E|exfalso].
    specialize (Hbelow E). rewrite H1 in Hbelow. revert Hbelow.
    unfold Qle. cbn. lia.
Qed.

Lemma confidence_extremes_witness :
  let st :=
    ingest 1000 SJIS initial (mkBuffer [x82; xa0; x82; xa2; x82; xa0] x00) in
  (0 <= 1000 < 2 ^ 32 - 1 ∧ reachable 1000 SJIS st ∧ 0 < mTotalRel st)
  ∧ mRelSample st !!! 0%nat = 0
  ∧ (GetConfidence st == 1)%Q.
Proof.
  cbn zeta.
  assert (0 <= 1000 < 2 ^ 32 - 1) as HM by lia.
  assert (reachable 1000 SJIS
    (ingest 1000 SJIS initial
       (mkBuffer [x82; xa0; x82; xa2; x82; xa0] x00))) as Hr.
  { apply reach_HandleData; [apply reach_initial|].
    unfold chunk_ok, aLen; cbn; lia. }
  assert (0 < mTotalRel (ingest 1000 SJIS initial
    (mkBuffer [x82; xa0; x82; xa2; x82; xa0] x00))) as Ht by reflexivity.
  split; [split; [exact HM|split; [exact Hr|exact Ht]]|].
  split; [reflexivity|].
  exact (proj1 (proj2 (confidence_extremes 1000 SJIS
           (ingest 1000 SJIS initial
              (mkBuffer [x82; xa0; x82; xa2; x82; xa0] x00)) HM Hr Ht))
         eq_refl).
Defined.

(** ** A character cut by the end of the buffer *)

Lemma lands_inv (e : Encoding) (l : list byte) (i : Z) (c : byte) :
  l !! Z.to_nat i = Some c →
  lands e l i → lands e l (i + charLen_of e (uchar c)).
Proof.
  intros Hc H. inversion H as [Hend|j c' Hj Hc' Hl Heq]; subst.
  - rewrite Nat2Z.id in Hc.
    apply lookup_lt_Some in Hc. lia.
  - rewrite Hc in Hc'. injection Hc' as <-. exact Hl.
Qed.

Lemma run_cut_or_lands (M : Z) (e : Encoding) (b : Buffer) (n : nat) :
  chunk_ok b →
  ∀ (i : Z) (st : State),
    (Z.to_nat (aLen b - i) <= n)%nat →
    0 <= i <= aLen b →
    mDone (value (run M e b i st)) = false →
    (lands e (aBuf b) i
     ∧ mNeedToSkipCharNum (value (run M e b i st)) = mNeedToSkipCharNum st)
    ∨ (¬ lands e (aBuf b) i
       ∧ mLastCharOrder (value (run M e b i st)) = -1
       ∧ 1 <= mNeedToSkipCharNum (value (run M e b i st)) <= 2).
Proof.
  intros Hb. induction n as [|n IH]; intros i st Hn Hi.
  - assert (i = aLen b) as -> by lia.
    rewrite run_end by lia. intros _. left. split; [|reflexivity].
    apply lands_end.
  - destruct (Z.eq_dec i (aLen b)) as [->|Hne].
    { rewrite run_end by lia. intros _. left. split; [|reflexivity].
      apply lands_end. }
    destruct (load_in b i ltac:(lia)) as (c & Hlk & _).
    pose proof (decode_lookup e b i c ltac:(lia) Hlk) as Hcl.
    pose proof (charLen_of_range e (uchar c)) as Hc.
    rewrite run_value by (exact Hb || lia). cbn zeta. rewrite Hcl.
    destruct (Z.ltb_spec i (aLen b)); [|lia].
    destruct (Z.ltb_spec (aLen b) (i + charLen_of e (uchar c))) as [Hcut|Hfit].
    + intros _. right. st_simpl. split; [|split; [reflexivity|lia]].
      intros Hl. apply (lands_inv e _ i c Hlk), lands_range in Hl.
      unfold aLen in Hcut. lia.
    + assert (∀ st' : State,
        mDone (value (run M e b (i + charLen_of e (uchar c)) st')) = false →
        mNeedToSkipCharNum st' = mNeedToSkipCharNum st →
        (lands e (aBuf b) i
         ∧ mNeedToSkipCharNum
             (value (run M e b (i + charLen_of e (uchar c)) st'))
           = mNeedToSkipCharNum st)
        ∨ (¬ lands e (aBuf b) i
           ∧ mLastCharOrder
               (value (run M e b (i + charLen_of e (uchar c)) st')) = -1
           ∧ 1 <= mNeedToSkipCharNum
                    (value (run M e b (i + charLen_of e (uchar c)) st'))
               <= 2)) as Hnext.
      { intros st' Hd Hs.
        destruct (IH (i + charLen_of e (uchar c)) st' ltac:(lia) ltac:(lia)
                    Hd) as [[Hl Hk]|[Hl Hk]].
        - left. split; [|congruence].
          apply (lands_step e _ i c); [lia|exact Hlk|exact Hl].
        - right. split; [|exact Hk].
          intros Hl'. apply Hl. apply (lands_inv e _ i c Hlk Hl'). }
      destruct (negb (_ =? -1) && negb (_ =? -1)).
      * destruct (M <? _); [discriminate|].
        intros Hd. apply Hnext; [exact Hd|reflexivity].
      * intros Hd. apply Hnext; [exact Hd|reflexivity].
Qed.

(** X17.  After a call of [HandleData] that does not finish the analyser,
    on a buffer at least as long as the number of bytes to skip, one of
    two things holds.  Either the characters decoded end exactly at the end
    of the buffer, and [mNeedToSkipCharNum] is what it was.  Or the last
    character is cut by the end of the buffer; then [mLastCharOrder] is -1,
    so that the cut character is paired with nothing, and
    [mNeedToSkipCharNum] is 1 or 2. *)
Theorem cut_character_or_boundary (M : Z) (e : Encoding) (st : State)
    (b : Buffer) :
  chunk_ok b →
  0 <= mNeedToSkipCharNum st <= aLen b →
  mDone (ingest M e st b) = false →
  (lands e (aBuf b) (mNeedToSkipCharNum st)
   ∧ mNeedToSkipCharNum (ingest M e st b) = mNeedToSkipCharNum st)
  ∨ (¬ lands e (aBuf b) (mNeedToSkipCharNum st)
     ∧ mLastCharOrder (ingest M e st b) = -1
     ∧ 1 <= mNeedToSkipCharNum (ingest M e st b) <= 2).
Proof.
  intros Hb Hs. unfold ingest. rewrite HandleData_run by (exact Hb || lia).
  destruct (mDone st) eqn:Hd; [cbn; congruence|].
  apply (run_cut_or_lands M e b
           (Z.to_nat (aLen b - mNeedToSkipCharNum st)) Hb); lia.
Qed.

Lemma cut_character_or_boundary_witness :
  let b := mkBuffer [xa4; xa2; x8f; xa1] x00 in
  (chunk_ok b
   ∧ 0 <= mNeedToSkipCharNum initial <= aLen b
   ∧ mDone (ingest 1000 EUCJP initial b) = false)
  ∧ mLastCharOrder (ingest 1000 EUCJP initial b) = -1
  ∧ mNeedToSkipCharNum (ingest 1000 EUCJP initial b) = 1
  ∧ ((lands EUCJP (aBuf b) (mNeedToSkipCharNum initial)
      ∧ mNeedToSkipCharNum (ingest 1000 EUCJP initial b)
        = mNeedToSkipCharNum initial)
     ∨ (¬ lands EUCJP (aBuf b) (mNeedToSkipCharNum initial)
        ∧ mLastCharOrder (ingest 1000 EUCJP initial b) = -1
        ∧ 1 <= mNeedToSkipCharNum (ingest 1000 EUCJP initial b) <= 2)).
Proof.
  cbn zeta.
  assert (chunk_ok (mkBuffer [xa4; xa2; x8f; xa1] x00)) as Hb
    by (unfold chunk_ok, aLen; cbn; lia).
  assert (0 <= mNeedToSkipCharNum initial
          <= aLen (mkBuffer [xa4; xa2; x8f; xa1] x00)) as Hs
    by (unfold aLen; cbn; lia).
  assert (mDone (ingest 1000 EUCJP initial
                   (mkBuffer [xa4; xa2; x8f; xa1] x00)) = false) as Hd
    by reflexivity.
  split; [split; [exact Hb|split; [exact Hs|exact Hd]]|].
  split; [reflexivity|]. split; [reflexivity|].
  exact (cut_character_or_boundary 1000 EUCJP initial
           (mkBuffer [xa4; xa2; x8f; xa1] x00) Hb Hs Hd).
Defined.

(** ** The counters stay within the count *)

(** X18.  In every reachable state each of the six counters of
    [mRelSample] lies between 0 and [mTotalRel], which is at most
    [MAX_REL_THRESHOLD + 1]: no counter wraps around. *)
Theorem counters_bounded (M : Z) (e : Encoding) (st : State) (k : nat) :
  0 <= M < 2 ^ 32 - 1 →
  reachable M e st →
  (k < NUM_OF_CATEGORY)%nat →
  (∃ v : Z, mRelSample st !! k = Some v)
  ∧ 0 <= mRelSample st !!! k <= mTotalRel st
  ∧ mTotalRel st <= M + 1.
Proof.
  intros HM Hr Hk.
  destruct (reachable_Inv M e st HM Hr) as [Hty Hnn Htot Hbd _ _ _].
  unfold typed in Hty.
  pose proof (total_samples_ge (mRelSample st) k Hnn ltac:(lia)) as H0.
  split; [apply lookup_lt_is_Some_2; lia|].
  destruct (mDone st); lia.
Qed.

Lemma counters_bounded_witness :
  let st :=
    ingest 1000 SJIS initial (mkBuffer [x82; xa0; x82; xa2; x82; x9f] x00) in
  (0 <= 1000 < 2 ^ 32 - 1 ∧ reachable 1000 SJIS st
   ∧ (4 < NUM_OF_CATEGORY)%nat)
  ∧ mRelSample st !!! 4%nat = 1
  ∧ 0 <= mRelSample st !!! 4%nat <= mTotalRel st.
Proof.
  cbn zeta.
  assert (0 <= 1000 < 2 ^ 32 - 1) as HM by lia.
  assert (reachable 1000 SJIS
    (ingest 1000 SJIS initial
       (mkBuffer [x82; xa0; x82; xa2; x82; x9f] x00))) as Hr.
  { apply reach_HandleData; [apply reach_initial|].
    unfold chunk_ok, aLen; cbn; lia. }
  assert (4 < NUM_OF_CATEGORY)%nat as Hk by (unfold NUM_OF_CATEGORY; lia).
  split; [split; [exact HM|split; [exact Hr|exact Hk]]|].
  split; [reflexivity|].
  exact (proj1 (proj2 (counters_bounded 1000 SJIS _ 4 HM Hr Hk))).
Defined.

(** ** The length a decoder reports *)

(** X19.  The length a decoder reports depends on the first byte alone,
    whatever follows it and whether or not a second byte can be read; it is
    1 or 2 for Shift-JIS and 1, 2 or 3 for EUC-JP, so every iteration of
    the loop of [HandleData] moves forward. *)
Theorem charLen_from_first_byte (e : Encoding) (str str' : Z → Rd Z) :
  value (str 0) = value (str' 0) →
  (value (GetOrder e str)).2 = (value (GetOrder e str')).2
  ∧ 1 <= (value (GetOrder e str)).2
      <= (match e with SJIS => 2 | EUCJP => 3 end).
Proof.
  intros H. rewrite !GetOrder_charLen, H. split; [reflexivity|].
  pose proof (charLen_of_range e (value (str' 0))).
  pose proof (charLen_of_max e (value (str' 0))). lia.
Qed.

Lemma charLen_from_first_byte_witness :
  let str := load (mkBuffer [x8f; xa1; xa1] x00) in
  let str' := load (mkBuffer [x8f] x41) in
  value (str 0) = value (str' 0)
  ∧ (value (GetOrder EUCJP str)).2 = 3
  ∧ (value (GetOrder EUCJP str)).2 = (value (GetOrder EUCJP str')).2.
Proof.
  cbn zeta.
  assert (value (load (mkBuffer [x8f; xa1; xa1] x00) 0)
          = value (load (mkBuffer [x8f] x41) 0)) as H by reflexivity.
  split; [exact H|]. split; [reflexivity|].
  exact (proj1 (charLen_from_first_byte EUCJP _ _ H)).
Defined.
